(** * The recipes data model (backend/recipes/models.py)

    The module declares seven ORM models.  The declarations are embedded
    below as data, field by field, and are given meaning by a small model
    of the framework operations that read them: field validation
    ([full_clean]), the database write ([save]), deletion with its
    cascade ([delete]) and default ordering ([all_objects]). *)

From Stdlib Require Import ZArith String Ascii List Lia.
From stdpp Require Import base option list gmap strings sorting.

Local Open Scope Z_scope.

(** ** Declarations *)

(** [on_delete] rules of a foreign key.  The module only writes
    [models.CASCADE]; [PROTECT] is kept so that cascading is read from the
    declaration and not built into [delete]. *)
Inductive on_delete_rule := CASCADE | PROTECT.

(** Regular expressions, as far as the validators of this module need
    them: a sequence of anchors and quantified single-character atoms. *)
Inductive re_atom :=
  | ReChar (c : ascii)
  | ReClass (ranges : list (ascii * ascii)).

Inductive re_item :=
  | ReStart                                            (* ^ *)
  | ReEnd                                              (* $ *)
  | ReEndAbs                                           (* \Z *)
  | ReRepeat (a : re_atom) (lo : nat) (hi : option nat). (* a{lo,hi} *)

Definition regex := list re_item.

Inductive validator :=
  | MinValueValidator (limit_value : Z)
  | MaxValueValidator (limit_value : Z)
  | MaxLengthValidator (limit_value : nat)
  | RegexValidator (re : regex) (code : string).

Inductive field_type :=
  | ForeignKey (to : string) (on_delete : on_delete_rule)
  | CharField (max_length : nat)
  | SlugField (max_length : nat)
  | TextField
  | ImageField (upload_to : string)
  | PositiveSmallIntegerField
  | ManyToManyField (to : string) (through : string).

Record field := Field {
  fname : string;
  ftype : field_type;
  unique : bool;
  validators : list validator
}.

Record constraint := UniqueConstraint {
  fields : list string;
  name : string
}.

Record meta := {
  ordering : list string;
  constraints : list constraint
}.

(** A model class: its fields, its inner [Meta] and the plain attribute
    [constraints] that two of the classes assign in the class body, next
    to [Meta] rather than inside it. *)
Record model := {
  model_name : string;
  model_fields : list field;
  Meta : meta;
  body_constraints : list constraint
}.

(** ** The declarations of models.py

    [verbose_name], [related_name], [help_text], [db_index] and validator
    messages do not influence any operation below and are left out. *)

(** Modelled from the spec: the user model (['users.User'], also reached
    as [User = get_user_model()]) is declared in another application and
    is missing here; the specification names it only as the target of
    foreign keys, so it is a model with a primary key and no fields. *)
Definition User : model :=
  {| model_name := "User"; model_fields := [];
     Meta := {| ordering := []; constraints := [] |};
     body_constraints := [] |}.

Definition Recipe : model :=
  {| model_name := "Recipe";
     model_fields :=
       [ Field "author" (ForeignKey "User" CASCADE) false [];
         Field "name" (CharField 200) false [];
         Field "image" (ImageField "recipes/") false [];
         Field "text" TextField false [MaxLengthValidator 1000];
         Field "ingredients" (ManyToManyField "Ingredient" "RecipeIngredient") false [];
         Field "tags" (ManyToManyField "Tag" "RecipeTag") false [];
         Field "cooking_time" PositiveSmallIntegerField false
           [MinValueValidator 1; MaxValueValidator 600] ];
     Meta := {| ordering := ["-id"]; constraints := [] |};
     body_constraints := [] |}.

(** [^#[a-fA-F0-9]{6}$] *)
Definition color_regex : regex :=
  [ ReStart;
    ReRepeat (ReChar "#") 1 (Some 1%nat);
    ReRepeat (ReClass [("a", "f"); ("A", "F"); ("0", "9")]%char) 6 (Some 6%nat);
    ReEnd ].

Definition Tag : model :=
  {| model_name := "Tag";
     model_fields :=
       [ Field "name" (CharField 200) true [];
         Field "color" (CharField 7) true [RegexValidator color_regex "wrong_hex_code"];
         Field "slug" (SlugField 200) true [] ];
     Meta := {| ordering := ["name"]; constraints := [] |};
     body_constraints := [] |}.

Definition Ingredient : model :=
  {| model_name := "Ingredient";
     model_fields :=
       [ Field "name" (CharField 200) false [];
         Field "measurement_unit" (CharField 200) false [] ];
     Meta := {| ordering := ["name"]; constraints := [] |};
     body_constraints := [] |}.

Definition RecipeIngredient : model :=
  {| model_name := "RecipeIngredient";
     model_fields :=
       [ Field "recipe" (ForeignKey "Recipe" CASCADE) false [];
         Field "ingredient" (ForeignKey "Ingredient" CASCADE) false [];
         Field "amount" PositiveSmallIntegerField false
           [MinValueValidator 1; MaxValueValidator 1000] ];
     Meta := {| ordering := [];
                constraints :=
                  [UniqueConstraint ["recipe"; "ingredient"] "unique_recipeingredient"] |};
     body_constraints := [] |}.

Definition RecipeTag : model :=
  {| model_name := "RecipeTag";
     model_fields :=
       [ Field "recipe" (ForeignKey "Recipe" CASCADE) false [];
         Field "tag" (ForeignKey "Tag" CASCADE) false [] ];
     Meta := {| ordering := []; constraints := [] |};
     body_constraints := [UniqueConstraint ["user"; "recipe"] "unique_tag"] |}.

Definition Favorite : model :=
  {| model_name := "Favorite";
     model_fields :=
       [ Field "user" (ForeignKey "User" CASCADE) false [];
         Field "recipe" (ForeignKey "Recipe" CASCADE) false [] ];
     Meta := {| ordering := [];
                constraints := [UniqueConstraint ["user"; "recipe"] "unique_favorite"] |};
     body_constraints := [] |}.

Definition ShoppingCart : model :=
  {| model_name := "ShoppingCart";
     model_fields :=
       [ Field "user" (ForeignKey "User" CASCADE) false [];
         Field "recipe" (ForeignKey "Recipe" CASCADE) false [] ];
     Meta := {| ordering := []; constraints := [] |};
     body_constraints := [UniqueConstraint ["user"; "recipe"] "unique_shopping_cart"] |}.

Definition installed_models : list model :=
  [User; Recipe; Tag; Ingredient; RecipeIngredient; RecipeTag; Favorite; ShoppingCart].

(** ** Values, rows and the database *)

(** Field values: integers, text (one [ascii] per character) and
    references to the primary key of another row. *)
Inductive value :=
  | VInt (n : Z)
  | VStr (s : string)
  | VRef (id : Z).

#[global] Instance value_eq_dec : EqDecision value.
Proof. solve_decision. Defined.

(** A stored row: the automatic primary key [id] and the column values. *)
Record row := Row {
  pk : Z;
  cols : gmap string value
}.

(** The database: the rows of each table, by model name, and the last
    value handed out by each table's id sequence. *)
Record database := Database {
  tables : gmap string (list row);
  sequences : gmap string Z
}.

Definition empty_db : database := Database ∅ ∅.

Definition objects (db : database) (m : string) : list row :=
  default [] (tables db !! m).

Definition last_id (db : database) (m : string) : Z :=
  default 0 (sequences db !! m).

Inductive error :=
  | ValidationError (errors : list (string * string))
  | IntegrityError (what : string)
  | ProtectedError
  | RecursionError.

Definition result (A : Type) : Type := error + A.

Definition bind {A B} (x : result A) (k : A → result B) : result B :=
  match x with
  | inl e => inl e
  | inr a => k a
  end.

Notation "x ←? e ; k" := (bind e (λ x, k))
  (at level 100, e at next level, k at level 200, right associativity).

(** ** Validators *)

Definition in_range (c : ascii) (r : ascii * ascii) : bool :=
  ((N_of_ascii r.1 <=? N_of_ascii c) && (N_of_ascii c <=? N_of_ascii r.2))%N.

Definition atom_matches (a : re_atom) (c : ascii) : bool :=
  match a with
  | ReChar d => Ascii.eqb c d
  | ReClass ranges => existsb (in_range c) ranges
  end.

Definition can_repeat (hi : option nat) : bool :=
  match hi with
  | Some O => false
  | _ => true
  end.

(** [a{lo,hi}] followed by the continuation [k]: every admissible number
    of repetitions is tried. *)
Fixpoint match_repeat (a : re_atom) (k : nat → string → bool)
    (lo : nat) (hi : option nat) (pos : nat) (s : string) : bool :=
  match lo with
  | S lo' =>
      match s with
      | String c s' =>
          can_repeat hi && atom_matches a c
          && match_repeat a k lo' (Nat.pred <$> hi) (S pos) s'
      | EmptyString => false
      end
  | O =>
      k pos s
      || match s with
         | String c s' =>
             can_repeat hi && atom_matches a c
             && match_repeat a k O (Nat.pred <$> hi) (S pos) s'
         | EmptyString => false
         end
  end.

Definition newline : ascii := ascii_of_nat 10.

(** [$] without MULTILINE: at the end of the string, or just before a
    newline that ends the string. *)
Definition at_dollar (s : string) : bool :=
  match s with
  | EmptyString => true
  | String c EmptyString => Ascii.eqb c newline
  | _ => false
  end.

Definition at_end (s : string) : bool :=
  match s with
  | EmptyString => true
  | _ => false
  end.

Fixpoint match_here (r : regex) (pos : nat) (s : string) : bool :=
  match r with
  | [] => true
  | ReStart :: r' => (pos =? 0)%nat && match_here r' pos s
  | ReEnd :: r' => at_dollar s && match_here r' pos s
  | ReEndAbs :: r' => at_end s && match_here r' pos s
  | ReRepeat a lo hi :: r' => match_repeat a (match_here r') lo hi pos s
  end.

Fixpoint search_from (r : regex) (pos : nat) (s : string) : bool :=
  match_here r pos s
  || match s with
     | String _ s' => search_from r (S pos) s'
     | EmptyString => false
     end.

(** [regex.search(value)], as [RegexValidator] calls it. *)
Definition re_search (r : regex) (s : string) : bool := search_from r 0 s.

(** [validate_slug]: [^[-a-zA-Z0-9_]+\Z] *)
Definition slug_regex : regex :=
  [ ReStart;
    ReRepeat (ReClass [("-", "-"); ("a", "z"); ("A", "Z"); ("0", "9"); ("_", "_")]%char)
      1 None;
    ReEndAbs ].

Definition validate_slug : validator := RegexValidator slug_regex "invalid".

(** A validator accepts ([true]) or rejects ([false]) a value. *)
Definition run_validator (v : validator) (x : value) : bool :=
  match v, x with
  | MinValueValidator l, VInt n => l <=? n
  | MaxValueValidator l, VInt n => n <=? l
  | MaxLengthValidator l, VStr s => (String.length s <=? l)%nat
  | RegexValidator re _, VStr s => re_search re s
  | _, _ => false
  end.

Definition validator_code (v : validator) : string :=
  match v with
  | MinValueValidator _ => "min_value"
  | MaxValueValidator _ => "max_value"
  | MaxLengthValidator _ => "max_length"
  | RegexValidator _ code => code
  end.

(** The range the framework's base database operations give to each
    integer field type ([integer_field_ranges]). *)
Definition integer_field_range (t : field_type) : option (Z * Z) :=
  match t with
  | PositiveSmallIntegerField => Some (0, 32767)
  | _ => None
  end.

(** Integer fields add the bounds of their type to the declared
    validators, unless a declared validator already is at least as
    strict. *)
Definition range_validators (t : field_type) (declared : list validator)
    : list validator :=
  match integer_field_range t with
  | None => []
  | Some (lo, hi) =>
      (if existsb (λ v, match v with
                        | MinValueValidator l => lo <=? l
                        | _ => false
                        end) declared
       then [] else [MinValueValidator lo])
      ++
      (if existsb (λ v, match v with
                        | MaxValueValidator l => l <=? hi
                        | _ => false
                        end) declared
       then [] else [MaxValueValidator hi])
  end.

Definition default_validators (t : field_type) : list validator :=
  match t with
  | SlugField _ => [validate_slug]
  | _ => []
  end.

Definition max_length_validators (t : field_type) : list validator :=
  match t with
  | CharField n | SlugField n => [MaxLengthValidator n]
  | _ => []
  end.

(** All validators a field runs: those of its class, those declared with
    it, and those its type adds. *)
Definition field_validators (f : field) : list validator :=
  default_validators (ftype f) ++ validators f
  ++ max_length_validators (ftype f)
  ++ range_validators (ftype f) (validators f).

(** [to_python]: the kind of value a field holds. *)
Definition type_ok (t : field_type) (x : value) : bool :=
  match t, x with
  | ForeignKey _ _, VRef _ => true
  | (CharField _ | SlugField _ | TextField | ImageField _), VStr _ => true
  | PositiveSmallIntegerField, VInt _ => true
  | _, _ => false
  end.

Definition is_empty_value (x : value) : bool :=
  match x with
  | VStr EmptyString => true
  | _ => false
  end.

(** [Field.clean]: the error codes raised for one field ([null] and
    [blank] are not allowed on any field of this module). *)
Definition clean_field (f : field) (v : option value) : list string :=
  match ftype f with
  | ManyToManyField _ _ => []
  | t =>
      match v with
      | None => ["null"]
      | Some x =>
          if negb (type_ok t x) then ["invalid"]
          else if is_empty_value x then ["blank"]
          else validator_code <$>
                 filter (λ v, run_validator v x = false) (field_validators f)
      end
  end.

(** [Model.clean_fields], the field part of [full_clean]: the errors of
    all fields.  Uniqueness is left to the database write below. *)
Definition full_clean (m : model) (data : gmap string value)
    : list (string * string) :=
  flat_map (λ f, pair (fname f) <$> clean_field f (data !! fname f))
           (model_fields m).

(** ** The database write *)

(** The column of a field holds a value of the field's kind (no column of
    this module is nullable), and an integer column a value of its type's
    range. *)
Definition column_ok (t : field_type) (v : option value) : bool :=
  match t with
  | ManyToManyField _ _ => true
  | _ =>
      match v with
      | None => false
      | Some x =>
          type_ok t x
          && match integer_field_range t, x with
             | Some (lo, hi), VInt n => (lo <=? n) && (n <=? hi)
             | _, _ => true
             end
      end
  end.

Definition has_pk (db : database) (m : string) (id : Z) : bool :=
  existsb (λ r, pk r =? id) (objects db m).

(** A foreign key refers to an existing row of its target. *)
Definition reference_ok (db : database) (t : field_type) (v : option value) : bool :=
  match t, v with
  | ForeignKey to _, Some (VRef id) => has_pk db to id
  | _, _ => true
  end.

(** The new values agree with a stored row on all the given columns. *)
Definition same_on (fs : list string) (data : gmap string value) (r : row) : bool :=
  forallb (λ f, match data !! f, cols r !! f with
                | Some a, Some b => bool_decide (a = b)
                | _, _ => false
                end) fs.

(** What the database keeps unique in a table: every field declared
    [unique=True] and every constraint listed in [Meta.constraints].
    Nothing else of the class is read. *)
Definition unique_sets (m : model) : list (string * list string) :=
  ((λ f, (fname f, [fname f])) <$> List.filter unique (model_fields m))
  ++ ((λ c, (name c, fields c)) <$> constraints (Meta m)).

Definition insert_row (m : string) (data : gmap string value) (db : database)
    : database :=
  let id := last_id db m + 1 in
  Database (<[m := objects db m ++ [Row id data]]> (tables db))
           (<[m := id]> (sequences db)).

(** [Model.save] of a new object: the INSERT, with the checks the
    database makes.  No validator runs here. *)
Definition save (m : model) (data : gmap string value) (db : database)
    : result database :=
  if negb (forallb (λ f, column_ok (ftype f) (data !! fname f)) (model_fields m))
  then inl (IntegrityError "column")
  else if negb (forallb (λ f, reference_ok db (ftype f) (data !! fname f))
                        (model_fields m))
  then inl (IntegrityError "foreign key")
  else match List.find (λ u, existsb (same_on u.2 data) (objects db (model_name m)))
                       (unique_sets m) with
       | Some u => inl (IntegrityError u.1)
       | None => inr (insert_row (model_name m) data db)
       end.

(** The data-entry boundary: validation, then the write. *)
Definition clean_and_save (m : model) (data : gmap string value) (db : database)
    : result database :=
  match full_clean m data with
  | [] => save m data db
  | errors => inl (ValidationError errors)
  end.

(** ** Deletion *)

(** The foreign keys that point at a model: (model, field, rule). *)
Definition referrers (target : string) : list (string * string * on_delete_rule) :=
  flat_map (λ m,
    flat_map (λ f,
      match ftype f with
      | ForeignKey to rule =>
          if String.eqb to target then [(model_name m, fname f, rule)] else []
      | _ => []
      end) (model_fields m)) installed_models.

Definition refers_to (f : string) (ids : list Z) (r : row) : bool :=
  match cols r !! f with
  | Some (VRef id) => bool_decide (id ∈ ids)
  | _ => false
  end.

Definition remove_rows (m : string) (ids : list Z) (db : database) : database :=
  Database (<[m := filter (λ r, pk r ∉ ids) (objects db m)]> (tables db))
           (sequences db).

(** One referring foreign key: the rows that refer to the deleted ones
    are deleted in their turn ([CASCADE]) or forbid the deletion
    ([PROTECT]). *)
Definition collect_related (rec : string → list Z → database → result database)
    (ids : list Z) (acc : result database)
    (ref : string * string * on_delete_rule) : result database :=
  let '(m', f, rule) := ref in
  db ←? acc;
  match pk <$> filter (λ r, refers_to f ids r = true) (objects db m') with
  | [] => inr db
  | hits =>
      match rule with
      | CASCADE => rec m' hits db
      | PROTECT => inl ProtectedError
      end
  end.

(** The deletion collector: the rows that refer to the deleted ones go
    first, one referring foreign key after the other, then the rows
    themselves. *)
Fixpoint delete_cascade (fuel : nat) (m : string) (ids : list Z) (db : database)
    : result database :=
  match fuel with
  | O => inl RecursionError
  | S fuel' =>
      db' ←? fold_left (collect_related (delete_cascade fuel') ids)
                       (referrers m) (inr db);
      inr (remove_rows m ids db')
  end.

Definition delete (m : model) (id : Z) (db : database) : result database :=
  delete_cascade (length installed_models) (model_name m) [id] db.

(** ** Default ordering *)

(** An entry of [Meta.ordering]: a leading [-] asks for descending order. *)
Definition order_key (o : string) : bool * string :=
  match o with
  | String "-" f => (true, f)
  | _ => (false, o)
  end.

Definition get_field (r : row) (f : string) : option value :=
  if String.eqb f "id" then Some (VInt (pk r)) else cols r !! f.

Definition value_rank (x : value) : nat :=
  match x with
  | VInt _ => 0
  | VStr _ => 1
  | VRef _ => 2
  end.

(** Order of column values: numbers by size, text character by
    character. *)
Definition value_le (a b : option value) : Prop :=
  match a, b with
  | None, _ => True
  | Some _, None => False
  | Some (VInt x), Some (VInt y) => x ≤ y
  | Some (VStr x), Some (VStr y) => String.le x y
  | Some (VRef x), Some (VRef y) => x ≤ y
  | Some x, Some y => (value_rank x < value_rank y)%nat
  end.

Definition key_le (o : string) (a b : row) : Prop :=
  let '(desc, f) := order_key o in
  if desc then value_le (get_field b f) (get_field a f)
  else value_le (get_field a f) (get_field b f).

(** ORDER BY the entries of [ordering], the first one most significant. *)
Fixpoint row_le (ordering : list string) (a b : row) : Prop :=
  match ordering with
  | [] => True
  | o :: os => key_le o a b ∧ (key_le o b a → row_le os a b)
  end.

#[global] Instance value_le_dec : RelDecision value_le.
Proof.
  intros [[x|x|x]|] [[y|y|y]|]; simpl; apply _.
Defined.

#[global] Instance key_le_dec o : RelDecision (key_le o).
Proof.
  intros a b. unfold key_le. destruct (order_key o) as [[] f]; apply _.
Defined.

#[global] Instance row_le_dec os : RelDecision (row_le os).
Proof.
  induction os as [|o os IH]; intros a b; simpl; apply _.
Defined.

(** [Model.objects.all()]: the rows of the table in the default order. *)
Definition all_objects (m : model) (db : database) : list row :=
  merge_sort (row_le (ordering (Meta m))) (objects db (model_name m)).

(** ** Reachable database states

    Rows come into being through a write operation and disappear through
    [delete].  The states reachable with [clean_and_save] are those of an
    application that validates what it stores; the states reachable with
    [save] are everything the database itself admits. *)

Definition writer : Type := model → gmap string value → database → result database.

Inductive step (w : writer) (db db' : database) : Prop :=
  | step_write (m : model) (data : gmap string value) :
      m ∈ installed_models → w m data db = inr db' → step w db db'
  | step_delete (m : model) (id : Z) :
      m ∈ installed_models → delete m id db = inr db' → step w db db'.

Inductive reachable (w : writer) : database → Prop :=
  | reachable_empty : reachable w empty_db
  | reachable_step (db db' : database) :
      reachable w db → step w db db' → reachable w db'.

(** How often a key (values for some columns) occurs in a table. *)
Definition occurrences (fs : list string) (key : gmap string value) (l : list row) : nat :=
  length (filter (λ r, same_on fs key r = true) l).

(** The text of a column. *)
Definition text_of (r : row) (f : string) : option string :=
  match cols r !! f with
  | Some (VStr s) => Some s
  | _ => None
  end.

(** ** Properties of tables and states *)

(** Every stored row of every model satisfies [P]. *)
Definition rows_satisfy (P : model → gmap string value → Prop) (db : database) : Prop :=
  ∀ m r, m ∈ installed_models → r ∈ objects db (model_name m) → P m (cols r).

(** No two rows of a table agree on the columns [fs]. *)
Definition distinct_on (fs : list string) (l : list row) : Prop :=
  ForallOrdPairs (λ r1 r2, same_on fs (cols r1) r2 = false) l.

Definition rows_distinct (db : database) : Prop :=
  ∀ m u, m ∈ installed_models → u ∈ unique_sets m →
    distinct_on u.2 (objects db (model_name m)).

(** The ids of a table are distinct and not beyond the table's sequence. *)
Definition keys_fresh (db : database) : Prop :=
  ∀ n, Forall (λ r, pk r ≤ last_id db n) (objects db n)
       ∧ NoDup (pk <$> objects db n).

(** ** Fields singled out *)




Definition color_field : field :=
  Field "color" (CharField 7) true [RegexValidator color_regex "wrong_hex_code"].

(** ** Colour codes *)

Definition is_hex_digit (c : ascii) : bool :=
  in_range c ("0", "9")%char || in_range c ("A", "F")%char
  || in_range c ("a", "f")%char.

Fixpoint all_hex (s : string) : bool :=
  match s with
  | EmptyString => true
  | String c s' => is_hex_digit c && all_hex s'
  end.

(** A colour code as the documentation describes it: [#] and six
    hexadecimal digits. *)
Definition hex_color (s : string) : bool :=
  match s with
  | String c rest => Ascii.eqb c "#" && (String.length rest =? 6)%nat && all_hex rest
  | EmptyString => false
  end.


(** ** A sample database

    Built through the data-entry boundary, first the catalogue, then one
    row of each association. *)

Fixpoint populate (w : writer) (script : list (model * gmap string value))
    (db : database) : result database :=
  match script with
  | [] => inr db
  | (m, data) :: script' => db' ←? w m data db; populate w script' db'
  end.

Definition recipe_data (title : string) (text : string) (minutes : Z)
    : gmap string value :=
  list_to_map [("author", VRef 1); ("name", VStr title);
               ("image", VStr "recipes/dish.png"); ("text", VStr text);
               ("cooking_time", VInt minutes)].

Definition pair_data (f1 : string) (id1 : Z) (f2 : string) (id2 : Z)
    : gmap string value :=
  list_to_map [(f1, VRef id1); (f2, VRef id2)].

(** The catalogue: a user, five recipes, a tag and two ingredients. *)
Definition catalogue_script : list (model * gmap string value) :=
  [ (User, ∅);
    (Recipe, recipe_data "Borscht" "Boil the beets." 90);
    (Recipe, recipe_data "Toast" "Toast the bread." 1);
    (Recipe, recipe_data "Stew" "Simmer." 600);
    (Recipe, recipe_data "Salad" "Chop and mix." 10);
    (Recipe, recipe_data "Omelette" "Whisk and fry." 7);
    (Tag, list_to_map [("name", VStr "breakfast"); ("color", VStr "#E26C2d");
                       ("slug", VStr "breakfast")]);
    (Ingredient, list_to_map [("name", VStr "egg"); ("measurement_unit", VStr "pcs")]);
    (Ingredient, list_to_map [("name", VStr "beet"); ("measurement_unit", VStr "g")]) ].

(** The associations of recipe 5. *)
Definition association_script : list (model * gmap string value) :=
  [ (RecipeIngredient,
       list_to_map [("recipe", VRef 5); ("ingredient", VRef 1); ("amount", VInt 3)]);
    (RecipeTag, pair_data "recipe" 5 "tag" 1);
    (Favorite, pair_data "user" 1 "recipe" 5);
    (ShoppingCart, pair_data "user" 1 "recipe" 5) ].

Definition catalogue_db : database :=
  match populate clean_and_save catalogue_script empty_db with
  | inr db => db
  | inl _ => empty_db
  end.

Definition sample_db : database :=
  match populate clean_and_save association_script catalogue_db with
  | inr db => db
  | inl _ => empty_db
  end.


(** ** Slugs *)

(** Every character of a string matches the atom. *)
Fixpoint all_match (a : re_atom) (s : string) : bool :=
  match s with
  | EmptyString => true
  | String c s' => atom_matches a c && all_match a s'
  end.

(** The characters of a slug: the class of [slug_regex]. *)
Definition slug_chars : re_atom :=
  ReClass [("-", "-"); ("a", "z"); ("A", "Z"); ("0", "9"); ("_", "_")]%char.

(** ** Display names *)

(** [Recipe.__str__]: [return self.name]. *)
Definition Recipe_str (r : row) : option string := text_of r "name".

(** [Tag.__str__]: [return self.name]. *)
Definition Tag_str (r : row) : option string := text_of r "name".

(** [Ingredient.__str__]: [return self.name]. *)
Definition Ingredient_str (r : row) : option string := text_of r "name".

(** The object behind a foreign key attribute ([self.recipe]): the row of
    the target model with the id the column holds; [None] stands for the
    exception raised when there is none. *)
Definition related_object (db : database) (target : string) (r : row) (f : string)
    : option row :=
  match cols r !! f with
  | Some (VRef id) => List.find (λ x, pk x =? id) (objects db target)
  | _ => None
  end.

(** [RecipeTag.__str__]: [return self.recipe.name]. *)
Definition RecipeTag_str (db : database) (r : row) : option string :=
  recipe ← related_object db "Recipe" r "recipe"; Recipe_str recipe.

(** ** Many-to-many relations *)

Definition find_model (n : string) : option model :=
  List.find (λ m, String.eqb (model_name m) n) installed_models.

(** The foreign key of a through model that points at a model. *)
Definition foreign_key_to (m : model) (target : string) : option string :=
  fname <$> List.find (λ f, match ftype f with
                            | ForeignKey to _ => String.eqb to target
                            | _ => false
                            end) (model_fields m).

(** The related manager of a [ManyToManyField] with [through]
    ([recipe.ingredients.all()]): the join of the target table with the
    links of the row [id], one row for each link, in the default order of
    the target model. *)
Definition many_to_many (m : model) (f : field) (id : Z) (db : database)
    : list row :=
  match ftype f with
  | ManyToManyField to through =>
      match find_model through, find_model to with
      | Some tm, Some target =>
          match foreign_key_to tm (model_name m), foreign_key_to tm to with
          | Some source_fk, Some target_fk =>
              merge_sort (row_le (ordering (Meta target)))
                (link ← filter (λ l, cols l !! source_fk = Some (VRef id))
                               (objects db through);
                 filter (λ t, cols link !! target_fk = Some (VRef (pk t)))
                        (objects db to))
          | _, _ => []
          end
      | _, _ => []
      end
  | _ => []
  end.

Definition ingredients_field : field :=
  Field "ingredients" (ManyToManyField "Ingredient" "RecipeIngredient") false [].

Definition tags_field : field :=
  Field "tags" (ManyToManyField "Tag" "RecipeTag") false [].

(** ** Referential integrity *)

(** Every foreign key of every stored row refers to a row that exists. *)
Definition references_resolve (db : database) : Prop :=
  ∀ m fld t rule r id,
    m ∈ installed_models → fld ∈ model_fields m →
    ftype fld = ForeignKey t rule →
    r ∈ objects db (model_name m) → cols r !! fname fld = Some (VRef id) →
    has_pk db t id = true.

(** ** Tactics *)

Ltac installed := unfold installed_models; repeat ((by left) || right).

Ltac field_cases Hf :=
  simpl in Hf; rewrite ?elem_of_cons, ?elem_of_nil in Hf;
  repeat (destruct Hf as [->|Hf]; [|]); [..|done].

(** * Properties *)

(** ** The tables after a write *)

Lemma objects_insert_row m data db n :
  objects (insert_row m data db) n =
    if decide (m = n) then objects db m ++ [Row (last_id db m + 1) data]
    else objects db n.
Proof.
  unfold insert_row, objects at 1. simpl.
  rewrite lookup_insert. destruct (decide (m = n)) as [->|]; done.
Qed.

Lemma last_id_insert_row m data db n :
  last_id (insert_row m data db) n =
    if decide (m = n) then last_id db m + 1 else last_id db n.
Proof.
  unfold insert_row, last_id at 1. simpl.
  rewrite lookup_insert. destruct (decide (m = n)) as [->|]; done.
Qed.

Lemma objects_remove_rows m ids db n :
  objects (remove_rows m ids db) n =
    if decide (m = n) then filter (λ r, pk r ∉ ids) (objects db m)
    else objects db n.
Proof.
  unfold remove_rows, objects at 1. simpl.
  rewrite lookup_insert. destruct (decide (m = n)) as [->|]; done.
Qed.

(** What a successful [save] has checked, and what it has done. *)
Lemma save_inr m data db db' :
  save m data db = inr db' →
  forallb (λ f, column_ok (ftype f) (data !! fname f)) (model_fields m) = true
  ∧ forallb (λ f, reference_ok db (ftype f) (data !! fname f)) (model_fields m) = true
  ∧ (∀ u r, u ∈ unique_sets m → r ∈ objects db (model_name m) →
       same_on u.2 data r = false)
  ∧ db' = insert_row (model_name m) data db.
Proof.
  unfold save. intros H.
  destruct (forallb _ (model_fields m)) eqn:Hc; simpl in H; [|done].
  destruct (forallb (λ f, reference_ok _ _ _) (model_fields m)) eqn:Hr;
    simpl in H; [|done].
  destruct (List.find _ (unique_sets m)) eqn:Hu; [done|].
  repeat split; [|congruence].
  intros u r Hin Hr'.
  apply list_elem_of_In in Hin.
  pose proof (find_none _ _ Hu u Hin) as Hn. simpl in Hn.
  apply not_true_iff_false. intros Hs.
  apply not_true_iff_false in Hn. apply Hn, existsb_exists.
  exists r. split; [by apply list_elem_of_In|done].
Qed.

Lemma save_complete m data db :
  forallb (λ f, column_ok (ftype f) (data !! fname f)) (model_fields m) = true →
  forallb (λ f, reference_ok db (ftype f) (data !! fname f)) (model_fields m) = true →
  (∀ u r, u ∈ unique_sets m → r ∈ objects db (model_name m) →
     same_on u.2 data r = false) →
  save m data db = inr (insert_row (model_name m) data db).
Proof.
  intros Hc Hr Hu. unfold save. rewrite Hc, Hr. simpl.
  destruct (List.find _ (unique_sets m)) as [u|] eqn:Hf; [|done].
  apply find_some in Hf as [Hin Hex].
  apply existsb_exists in Hex as (r & Hr' & Hs).
  rewrite (Hu u r) in Hs; [done| by apply list_elem_of_In..].
Qed.

Lemma clean_and_save_inr m data db db' :
  clean_and_save m data db = inr db' →
  full_clean m data = [] ∧ save m data db = inr db'.
Proof.
  unfold clean_and_save. destruct (full_clean m data); [done|discriminate].
Qed.

(** ** Deletion only removes rows *)

(** A transitive relation between databases that removing rows respects
    holds between the database before and after a deletion. *)
Section delete_preserves.
Variable R : database → database → Prop.
Hypothesis R_refl : ∀ db, R db db.
Hypothesis R_trans : ∀ db1 db2 db3, R db1 db2 → R db2 db3 → R db1 db3.
Hypothesis R_remove : ∀ m ids db, R db (remove_rows m ids db).

Lemma collect_related_preserves rec ids refs :
  (∀ m hits db db', rec m hits db = inr db' → R db db') →
  ∀ acc db1,
    fold_left (collect_related rec ids) refs acc = inr db1 →
    ∃ db0, acc = inr db0 ∧ R db0 db1.
Proof.
  intros Hrec.
  induction refs as [|[[m' f] rule] refs IHr]; intros acc db1; simpl.
  - intros ->. eauto.
  - intros H. apply IHr in H as (db2 & H & Hsub).
    destruct acc as [e|db0]; simpl in H; [done|].
    exists db0. split; [done|].
    destruct (pk <$> filter _ (objects db0 m')) eqn:Hh.
    + by simplify_eq.
    + destruct rule; [|done]. eapply R_trans; [|exact Hsub]. by eapply Hrec.
Qed.

Lemma delete_cascade_preserves fuel m ids db db' :
  delete_cascade fuel m ids db = inr db' → R db db'.
Proof.
  revert m ids db db'.
  induction fuel as [|fuel IH]; intros m ids db db'; simpl; [done|].
  intros H.
  destruct (fold_left (collect_related (delete_cascade fuel) ids)
              (referrers m) (inr db)) as [e|db1] eqn:Hf;
    simpl in H; [done|].
  simplify_eq.
  apply collect_related_preserves in Hf as (db0 & ? & Hsub); [|exact IH].
  simplify_eq. eapply R_trans; [exact Hsub|apply R_remove].
Qed.
End delete_preserves.

Lemma delete_cascade_sublist fuel m ids db db' n :
  delete_cascade fuel m ids db = inr db' →
  objects db' n `sublist_of` objects db n.
Proof.
  apply (delete_cascade_preserves
           (λ db db', objects db' n `sublist_of` objects db n)).
  - done.
  - intros db1 db2 db3 H12 H23. by etrans.
  - intros m0 ids0 db0. rewrite objects_remove_rows.
    destruct (decide (m0 = n)) as [->|]; [apply sublist_filter|done].
Qed.

Lemma delete_cascade_sequences fuel m ids db db' :
  delete_cascade fuel m ids db = inr db' → sequences db' = sequences db.
Proof.
  apply (delete_cascade_preserves (λ db db', sequences db' = sequences db)).
  - done.
  - intros db1 db2 db3 H12 H23. congruence.
  - done.
Qed.

Lemma delete_sublist m id db db' n :
  delete m id db = inr db' → objects db' n `sublist_of` objects db n.
Proof. apply delete_cascade_sublist. Qed.

(** ** Invariants of the reachable states *)

Lemma installed_model_names m1 m2 :
  m1 ∈ installed_models → m2 ∈ installed_models →
  model_name m1 = model_name m2 → m1 = m2.
Proof.
  unfold installed_models. rewrite !elem_of_cons, !elem_of_nil.
  intros H1 H2.
  repeat (destruct H1 as [->|H1]; [|]); try done;
    repeat (destruct H2 as [->|H2]; [|]); try done; simpl; congruence.
Qed.

Lemma objects_empty_db n : objects empty_db n = [].
Proof. unfold objects, empty_db. simpl. by rewrite lookup_empty. Qed.

Lemma reachable_mono (w w' : writer) db :
  (∀ m data db db', w m data db = inr db' → w' m data db = inr db') →
  reachable w db → reachable w' db.
Proof.
  intros Hw. induction 1 as [|db db' _ IH Hstep]; [constructor|].
  apply (reachable_step _ db); [done|].
  destruct Hstep as [m data ? ?|m id ? ?].
  - eapply step_write; eauto.
  - eapply step_delete; eauto.
Qed.

Lemma save_refines_save m data db db' :
  save m data db = inr db' → save m data db = inr db'.
Proof. done. Qed.

Lemma clean_and_save_refines_save m data db db' :
  clean_and_save m data db = inr db' → save m data db = inr db'.
Proof. intros H. by apply clean_and_save_inr in H as [_ ?]. Qed.

(** A property that the write operation establishes for the row it
    stores holds for all stored rows. *)
Lemma reachable_rows_satisfy (w : writer) (P : model → gmap string value → Prop) :
  (∀ m data db db', w m data db = inr db' →
     db' = insert_row (model_name m) data db ∧ P m data) →
  ∀ db, reachable w db → rows_satisfy P db.
Proof.
  intros Hw db. induction 1 as [|db db' _ IH Hstep]; intros m r Hm Hr.
  - rewrite objects_empty_db in Hr. by apply elem_of_nil in Hr.
  - destruct Hstep as [m0 data Hm0 Hsave|m0 id Hm0 Hdel].
    + apply Hw in Hsave as [-> HP].
      rewrite objects_insert_row in Hr.
      destruct (decide (model_name m0 = model_name m)) as [Heq|]; [|by apply IH].
      apply installed_model_names in Heq as ->; [|done..].
      apply elem_of_app in Hr as [Hr|Hr]; [by apply IH|].
      apply list_elem_of_singleton in Hr as ->. done.
    + apply IH; [done|]. eapply elem_of_sublist; [exact Hr|].
      by eapply delete_sublist.
Qed.

Lemma ForallOrdPairs_snoc {A} (R : A → A → Prop) l y :
  ForallOrdPairs R l → Forall (λ x, R x y) l → ForallOrdPairs R (l ++ [y]).
Proof.
  induction 1 as [|x l Hx Hl IH]; intros Hy; simpl.
  - repeat constructor.
  - apply Forall_cons in Hy as [Hxy Hy]. constructor; [|by apply IH].
    apply Forall_app. split; [done|]. by repeat constructor.
Qed.

Lemma ForallOrdPairs_sublist {A} (R : A → A → Prop) l k :
  l `sublist_of` k → ForallOrdPairs R k → ForallOrdPairs R l.
Proof.
  induction 1 as [|x l k Hsub IH|x l k Hsub IH]; intros Hk.
  - constructor.
  - inversion Hk as [|? ? Hx Hk']; subst. constructor; [|by apply IH].
    eapply Forall_forall. intros y Hy. eapply Forall_forall in Hx; [exact Hx|].
    by eapply elem_of_sublist.
  - inversion Hk; subst. by apply IH.
Qed.

Lemma same_on_sym fs id data r :
  same_on fs (cols r) (Row id data) = same_on fs data r.
Proof.
  induction fs as [|f fs IH]; simpl; [done|]. rewrite <- IH. f_equal.
  destruct (cols r !! f) as [a|], (data !! f) as [b|]; try done.
  apply bool_decide_ext. naive_solver.
Qed.

Lemma filter_none {A} (P : A → Prop) `{∀ x, Decision (P x)} (l : list A) :
  Forall (λ x, ¬ P x) l → filter P l = [].
Proof.
  induction 1 as [|x l Hx Hl IH]; [done|]. by rewrite filter_cons_False.
Qed.

Lemma same_on_trans fs key r1 r2 :
  same_on fs key r1 = true → same_on fs key r2 = true →
  same_on fs (cols r1) r2 = true.
Proof.
  unfold same_on. rewrite !forallb_forall. intros H1 H2 f Hf.
  specialize (H1 f Hf). specialize (H2 f Hf).
  destruct (key !! f) as [a|], (cols r1 !! f) as [b|], (cols r2 !! f) as [c|];
    try done.
  apply bool_decide_eq_true in H1, H2. apply bool_decide_eq_true. congruence.
Qed.

(** In a table whose rows are distinct on [fs], a key occurs at most
    once. *)
Lemma distinct_on_occurrences fs key l :
  distinct_on fs l → (occurrences fs key l ≤ 1)%nat.
Proof.
  unfold occurrences. induction 1 as [|r l Hr Hl IH]; [simpl; lia|].
  rewrite filter_cons. case_decide as Hk; [|done]. simpl.
  assert (filter (λ r0, same_on fs key r0 = true) l = []) as ->; [|simpl; lia].
  apply filter_none, Forall_forall. intros r' Hr' Hk'.
  eapply Forall_forall in Hr; [|exact Hr'].
  by rewrite (same_on_trans fs key r r') in Hr.
Qed.

(** The uniqueness that [save] checks holds in every reachable state, for
    any write operation that ends in [save]. *)
Lemma reachable_rows_distinct (w : writer) :
  (∀ m data db db', w m data db = inr db' → save m data db = inr db') →
  ∀ db, reachable w db → rows_distinct db.
Proof.
  intros Hw db. induction 1 as [|db db' _ IH Hstep]; intros m u Hm Hu.
  - rewrite objects_empty_db. constructor.
  - destruct Hstep as [m0 data Hm0 Hsave|m0 id Hm0 Hdel].
    + apply Hw, save_inr in Hsave as (_ & _ & Huniq & ->).
      rewrite objects_insert_row.
      destruct (decide (model_name m0 = model_name m)) as [Heq|]; [|by apply IH].
      apply installed_model_names in Heq as ->; [|done..].
      apply ForallOrdPairs_snoc; [by apply IH|].
      apply Forall_forall. intros r Hr. rewrite same_on_sym. by apply Huniq.
    + eapply ForallOrdPairs_sublist; [by eapply delete_sublist|by apply IH].
Qed.

(** ** Validation *)

Lemma full_clean_elem m data f c :
  f ∈ model_fields m → c ∈ clean_field f (data !! fname f) →
  (fname f, c) ∈ full_clean m data.
Proof.
  intros Hf Hc. apply list_elem_of_In, in_flat_map.
  exists f. split; [by apply list_elem_of_In|].
  apply list_elem_of_In, list_elem_of_fmap. eauto.
Qed.

Lemma full_clean_nil m data f :
  full_clean m data = [] → f ∈ model_fields m →
  clean_field f (data !! fname f) = [].
Proof.
  intros Hnil Hf.
  destruct (clean_field f (data !! fname f)) as [|c cs] eqn:Hc; [done|].
  assert ((fname f, c) ∈ full_clean m data) as Hin.
  { apply full_clean_elem; [done|]. rewrite Hc. by left. }
  rewrite Hnil in Hin. by apply elem_of_nil in Hin.
Qed.


(** A value that passes [clean_field] is present, of the field's kind,
    not blank, and accepted by every validator of the field. *)
Lemma clean_field_nil f v :
  clean_field f v = [] →
  (∀ to through, ftype f ≠ ManyToManyField to through) →
  ∃ x, v = Some x ∧ type_ok (ftype f) x = true ∧ is_empty_value x = false
       ∧ Forall (λ vd, run_validator vd x = true) (field_validators f).
Proof.
  unfold clean_field. intros H Hm2m.
  destruct v as [x|]; [|destruct (ftype f); try done; exfalso; by eapply Hm2m].
  exists x.
  assert ((if negb (type_ok (ftype f) x) then ["invalid"]
           else if is_empty_value x then ["blank"]
           else validator_code <$>
                  filter (λ v, run_validator v x = false) (field_validators f))
          = []) as H'.
  { destruct (ftype f); try exact H. exfalso. by eapply Hm2m. }
  clear H. destruct (type_ok (ftype f) x); [|done].
  destruct (is_empty_value x); [done|]. simpl in H'.
  repeat split. apply Forall_forall. intros vd Hvd.
  destruct (run_validator vd x) eqn:Hrun; [done|].
  apply fmap_nil_inv in H'.
  assert (vd ∈ filter (λ v, run_validator v x = false) (field_validators f)) as Hin
    by by apply list_elem_of_filter.
  rewrite H' in Hin. by apply elem_of_nil in Hin.
Qed.



(** The rows stored through the data-entry boundary are valid. *)
Lemma reachable_valid db :
  reachable clean_and_save db → rows_satisfy (λ m data, full_clean m data = []) db.
Proof.
  apply reachable_rows_satisfy. intros m data db0 db' H.
  apply clean_and_save_inr in H as [Hc H].
  by apply save_inr in H as (_ & _ & _ & ->).
Qed.


(** ** The sample database is reachable *)

Lemma populate_reachable w script db db' :
  Forall (λ op, op.1 ∈ installed_models) script →
  reachable w db → populate w script db = inr db' → reachable w db'.
Proof.
  intros Hs. revert db. induction Hs as [|[m data] script Hm Hs IH]; intros db Hdb.
  - simpl. by intros [= <-].
  - simpl. destruct (w m data db) as [e|db1] eqn:Hw; simpl; [done|].
    apply IH. eapply reachable_step; [exact Hdb|]. by eapply step_write.
Qed.

Lemma catalogue_db_populated :
  populate clean_and_save catalogue_script empty_db = inr catalogue_db.
Proof. vm_compute. reflexivity. Qed.

Lemma sample_db_populated :
  populate clean_and_save association_script catalogue_db = inr sample_db.
Proof. vm_compute. reflexivity. Qed.

Lemma catalogue_db_reachable : reachable clean_and_save catalogue_db.
Proof.
  eapply populate_reachable; [|apply reachable_empty|apply catalogue_db_populated].
  unfold catalogue_script. repeat (constructor; [simpl; installed|]). constructor.
Qed.

Lemma sample_db_reachable : reachable clean_and_save sample_db.
Proof.
  eapply populate_reachable;
    [|apply catalogue_db_reachable|apply sample_db_populated].
  unfold association_script. repeat (constructor; [simpl; installed|]). constructor.
Qed.

Lemma sample_db_stored : reachable save sample_db.
Proof.
  eapply reachable_mono; [|apply sample_db_reachable].
  apply clean_and_save_refines_save.
Qed.

(** ** Recipe.cooking_time *)




(** ** Uniqueness at the write *)

Lemma same_on_id fs id data :
  (∀ f, f ∈ fs → is_Some (data !! f)) → same_on fs data (Row id data) = true.
Proof.
  intros H. apply forallb_forall. intros f Hf%list_elem_of_In. simpl.
  destruct (H f Hf) as [x ->]. by apply bool_decide_eq_true.
Qed.

Lemma existsb_same_on fs key l :
  existsb (same_on fs key) l = false ↔ occurrences fs key l = 0%nat.
Proof.
  unfold occurrences. induction l as [|r l IH]; [done|].
  simpl. rewrite filter_cons. case_decide as Hr.
  - rewrite Hr. simpl. split; [done|lia].
  - apply not_true_is_false in Hr. rewrite Hr. exact IH.
Qed.

Lemma occurrences_snoc fs key l r :
  occurrences fs key (l ++ [r]) =
    (occurrences fs key l + if same_on fs key r then 1 else 0)%nat.
Proof.
  unfold occurrences. rewrite filter_app, length_app. f_equal.
  rewrite filter_cons, filter_nil. case_decide as Hr.
  - by rewrite Hr.
  - apply not_true_is_false in Hr. by rewrite Hr.
Qed.

(** A row that agrees with a stored one on a unique set is refused. *)
Lemma save_rejects_duplicate m data db u r :
  u ∈ unique_sets m → r ∈ objects db (model_name m) →
  same_on u.2 data r = true →
  ∃ what, save m data db = inl (IntegrityError what).
Proof.
  intros Hu Hr Hs. unfold save.
  destruct (negb (forallb _ (model_fields m))); [by eauto|].
  destruct (negb (forallb _ (model_fields m))); [by eauto|].
  destruct (List.find _ (unique_sets m)) as [u'|] eqn:Hf; [by eauto|].
  apply list_elem_of_In in Hu. pose proof (find_none _ _ Hf u Hu) as Hn.
  simpl in Hn. exfalso.
  assert (existsb (same_on u.2 data) (objects db (model_name m)) = true) as He.
  { apply existsb_exists. exists r. split; [by apply list_elem_of_In|done]. }
  congruence.
Qed.

Lemma has_pk_insert_row db m data n id :
  has_pk db n id = true → has_pk (insert_row m data db) n id = true.
Proof.
  unfold has_pk. rewrite objects_insert_row.
  destruct (decide (m = n)) as [->|]; [|done].
  rewrite existsb_app. intros ->. done.
Qed.

Lemma reference_ok_insert_row db m data t v :
  reference_ok db t v = true → reference_ok (insert_row m data db) t v = true.
Proof.
  unfold reference_ok. destruct t; try done.
  destruct v as [[]|]; try done. apply has_pk_insert_row.
Qed.

(** Writing the values that were just stored once more: refused when the
    model has a unique set that the values fill. *)
Lemma save_twice_rejected m data db db' u :
  save m data db = inr db' → u ∈ unique_sets m →
  (∀ f, f ∈ u.2 → is_Some (data !! f)) →
  ∃ what, save m data db' = inl (IntegrityError what).
Proof.
  intros Hsave Hu Hcols. apply save_inr in Hsave as (_ & _ & _ & ->).
  apply (save_rejects_duplicate m data _ u
           (Row (last_id db (model_name m) + 1) data)); [done| |].
  - rewrite objects_insert_row, decide_True by done.
    apply elem_of_app. right. by left.
  - by apply same_on_id.
Qed.

(** ... and accepted when the model keeps nothing unique. *)
Lemma save_twice_accepted m data db db' :
  unique_sets m = [] → save m data db = inr db' →
  save m data db' = inr (insert_row (model_name m) data db').
Proof.
  intros Hnone Hsave. apply save_inr in Hsave as (Hc & Hr & _ & ->).
  apply save_complete; [done| |].
  - apply forallb_forall. intros f Hf.
    apply reference_ok_insert_row. by eapply forallb_forall in Hr.
  - intros u r Hu. rewrite Hnone in Hu. by apply elem_of_nil in Hu.
Qed.

Lemma clean_and_save_valid m data db :
  full_clean m data = [] → clean_and_save m data db = save m data db.
Proof. unfold clean_and_save. by intros ->. Qed.

(** ** Favorite *)

(** C3.  A Favorite for a (user, recipe) pair that is not yet stored is
    accepted, the same pair is then refused with an integrity error, and
    exactly one row with the pair is left; in every state the database can
    reach, with or without validation, a pair occurs at most once among the
    Favorite rows. *)
Theorem favorite_pair_unique :
  (∀ db u r,
     has_pk db "User" u = true → has_pk db "Recipe" r = true →
     occurrences ["user"; "recipe"] (pair_data "user" u "recipe" r)
                 (objects db "Favorite") = 0%nat →
     ∃ db' what,
       clean_and_save Favorite (pair_data "user" u "recipe" r) db = inr db'
       ∧ clean_and_save Favorite (pair_data "user" u "recipe" r) db'
         = inl (IntegrityError what)
       ∧ occurrences ["user"; "recipe"] (pair_data "user" u "recipe" r)
                     (objects db' "Favorite") = 1%nat)
  ∧ (∀ db key, reachable save db →
       (occurrences ["user"; "recipe"] key (objects db "Favorite") ≤ 1)%nat).
Proof.
  split.
  - intros db u r Hu Hr Hnone.
    set (data := pair_data "user" u "recipe" r) in *.
    assert (full_clean Favorite data = []) as Hclean by reflexivity.
    assert (save Favorite data db = inr (insert_row "Favorite" data db)) as Hsave.
    { apply (save_complete Favorite).
      - reflexivity.
      - simpl. change (data !! "user") with (Some (VRef u)).
        change (data !! "recipe") with (Some (VRef r)). simpl.
        by rewrite Hu, Hr.
      - intros s row Hs Hrow. simpl in Hs. apply list_elem_of_singleton in Hs as ->.
        simpl. apply existsb_same_on in Hnone.
        apply not_true_iff_false. intros Hsame.
        apply not_true_iff_false in Hnone. apply Hnone, existsb_exists.
        exists row. split; [by apply list_elem_of_In|done]. }
    destruct (save_twice_rejected Favorite data db _
                ("unique_favorite", ["user"; "recipe"]) Hsave) as [what Hagain].
    { by left. }
    { intros f Hf. field_cases Hf; by eexists. }
    exists (insert_row "Favorite" data db), what.
    rewrite !clean_and_save_valid by done. repeat split; [done..|].
    rewrite objects_insert_row, decide_True by done.
    rewrite occurrences_snoc, Hnone.
    rewrite same_on_id; [done|].
    intros f Hf. field_cases Hf; by eexists.
  - intros db key Hdb.
    apply distinct_on_occurrences.
    apply (reachable_rows_distinct save save_refines_save
             db Hdb Favorite ("unique_favorite", ["user"; "recipe"])).
    + installed.
    + by left.
Qed.

Lemma favorite_pair_unique_witness :
  (∃ db' what,
     clean_and_save Favorite (pair_data "user" 1 "recipe" 5) catalogue_db = inr db'
     ∧ clean_and_save Favorite (pair_data "user" 1 "recipe" 5) db'
       = inl (IntegrityError what)
     ∧ occurrences ["user"; "recipe"] (pair_data "user" 1 "recipe" 5)
                   (objects db' "Favorite") = 1%nat)
  ∧ (occurrences ["user"; "recipe"] (pair_data "user" 1 "recipe" 5)
                 (objects sample_db "Favorite") ≤ 1)%nat.
Proof.
  split.
  - apply (proj1 favorite_pair_unique); vm_compute; reflexivity.
  - apply (proj2 favorite_pair_unique). apply sample_db_stored.
Defined.


(** ** ShoppingCart *)

(** C2.  The ShoppingCart class assigns its constraint in the class
    body, so no unique set is derived for it: in the catalogue database the
    pair (user 1, recipe 5) is stored twice, both entries succeed, and the
    table then holds two rows with that pair. *)
Theorem shopping_cart_pair_stored_twice :
  body_constraints ShoppingCart
    = [UniqueConstraint ["user"; "recipe"] "unique_shopping_cart"]
  ∧ unique_sets ShoppingCart = []
  ∧ ∃ db1 db2,
      clean_and_save ShoppingCart (pair_data "user" 1 "recipe" 5) catalogue_db
        = inr db1
      ∧ clean_and_save ShoppingCart (pair_data "user" 1 "recipe" 5) db1 = inr db2
      ∧ occurrences ["user"; "recipe"] (pair_data "user" 1 "recipe" 5)
                    (objects db2 "ShoppingCart") = 2%nat.
Proof.
  split; [reflexivity|]. split; [reflexivity|].
  set (data := pair_data "user" 1 "recipe" 5).
  exists (insert_row "ShoppingCart" data catalogue_db),
         (insert_row "ShoppingCart" data
            (insert_row "ShoppingCart" data catalogue_db)).
  repeat split; vm_compute; reflexivity.
Qed.

(** ** RecipeTag *)

(** C7, as stated: a constraint on [user] and [recipe] in
    [RecipeTag.Meta.constraints], no [user] field, and no uniqueness kept.
    The first part fails: [Meta.constraints] of RecipeTag is empty. *)
Lemma recipe_tag_meta_has_no_constraint :
  ¬ ((∃ c, c ∈ constraints (Meta RecipeTag) ∧ fields c = ["user"; "recipe"])
     ∧ (∀ f, f ∈ model_fields RecipeTag → fname f ≠ "user")
     ∧ unique_sets RecipeTag = []).
Proof.
  intros [(c & Hc & _) _]. simpl in Hc. by apply elem_of_nil in Hc.
Qed.

(** C7, amended.  RecipeTag assigns the constraint on [user] and
    [recipe] in the class body, outside [Meta]; the class has no [user]
    field; [Meta.constraints] is empty, no unique set is derived, and an
    entry that was accepted is accepted again, so that the table holds the
    same (recipe, tag) values in two rows. *)
Theorem recipe_tag_constraint_not_enforced :
  body_constraints RecipeTag = [UniqueConstraint ["user"; "recipe"] "unique_tag"]
  ∧ constraints (Meta RecipeTag) = []
  ∧ (∀ f, f ∈ model_fields RecipeTag → fname f ≠ "user")
  ∧ unique_sets RecipeTag = []
  ∧ (∀ db db' data,
       clean_and_save RecipeTag data db = inr db' →
       ∃ db'', clean_and_save RecipeTag data db' = inr db''
               ∧ objects db'' "RecipeTag"
                 = objects db "RecipeTag"
                   ++ [Row (last_id db "RecipeTag" + 1) data;
                       Row (last_id db "RecipeTag" + 2) data]).
Proof.
  repeat split; try reflexivity.
  - intros f Hf. field_cases Hf; done.
  - intros db db' data H.
    apply clean_and_save_inr in H as [Hclean Hsave].
    pose proof (save_twice_accepted RecipeTag data db db' eq_refl Hsave) as Hagain.
    apply save_inr in Hsave as (_ & _ & _ & ->).
    eexists. rewrite clean_and_save_valid by done. split; [exact Hagain|].
    rewrite !objects_insert_row, !decide_True by done.
    rewrite <- app_assoc. simpl.
    rewrite last_id_insert_row, decide_True by done.
    by replace (last_id db "RecipeTag" + 1 + 1) with (last_id db "RecipeTag" + 2)
      by lia.
Qed.

Lemma recipe_tag_constraint_not_enforced_witness :
  ∃ db'', clean_and_save RecipeTag (pair_data "recipe" 5 "tag" 1)
            (insert_row "RecipeTag" (pair_data "recipe" 5 "tag" 1) catalogue_db)
          = inr db''
          ∧ objects db'' "RecipeTag"
            = objects catalogue_db "RecipeTag"
              ++ [Row (last_id catalogue_db "RecipeTag" + 1)
                      (pair_data "recipe" 5 "tag" 1);
                  Row (last_id catalogue_db "RecipeTag" + 2)
                      (pair_data "recipe" 5 "tag" 1)].
Proof.
  apply (proj2 (proj2 (proj2 (proj2 recipe_tag_constraint_not_enforced)))).
  vm_compute. reflexivity.
Defined.

(** ** RecipeIngredient *)




(** ** Recipe.text *)




(** ** Tag *)

Lemma search_from_anchored r p s : search_from (ReStart :: r) (S p) s = false.
Proof. revert p. induction s as [|c s IH]; intros p; simpl; [done|]. apply IH. Qed.

(** A pattern that starts with [^] can only match at the start. *)
Lemma re_search_anchored r s : re_search (ReStart :: r) s = match_here r 0 s.
Proof.
  unfold re_search. destruct s as [|c s]; simpl.
  - by rewrite orb_false_r.
  - by rewrite search_from_anchored, orb_false_r.
Qed.

Lemma match_repeat_done a k pos s : match_repeat a k 0 (Some 0%nat) pos s = k pos s.
Proof. destruct s; simpl; by rewrite orb_false_r. Qed.

Lemma match_repeat_next a k lo hi pos s :
  match_repeat a k (S lo) (Some (S hi)) pos s =
    match s with
    | String c s' => atom_matches a c && match_repeat a k lo (Some hi) (S pos) s'
    | EmptyString => false
    end.
Proof. by destruct s. Qed.

Lemma hex_class c :
  atom_matches (ReClass [("a", "f"); ("A", "F"); ("0", "9")]%char) c = is_hex_digit c.
Proof.
  unfold atom_matches, is_hex_digit. simpl.
  destruct (in_range c ("a", "f")%char), (in_range c ("A", "F")%char),
    (in_range c ("0", "9")%char); done.
Qed.


Ltac next_char s H :=
  rewrite match_repeat_next in H; destruct s as [|? s]; [done|];
  apply andb_true_iff in H as [? H].

(** Within seven characters, the validator's pattern accepts colour codes
    only. *)
Lemma color_regex_hex s :
  re_search color_regex s = true → (String.length s ≤ 7)%nat → hex_color s = true.
Proof.
  unfold color_regex. rewrite re_search_anchored. intros H Hlen.
  cbn [match_here] in H.
  next_char s H. rewrite match_repeat_done in H.
  do 6 next_char s H. rewrite match_repeat_done in H.
  destruct s; [|simpl in Hlen; lia].
  simpl in *. rewrite <- !hex_class. by repeat (apply andb_true_iff; split).
Qed.


(** Alone, the pattern also accepts a colour code followed by a newline;
    the length limit of the field refuses it. *)
Example color_regex_trailing_newline :
  re_search color_regex (String.append "#E26C2d" (String newline EmptyString)) = true
  ∧ clean_field color_field
      (Some (VStr (String.append "#E26C2d" (String newline EmptyString))))
    = ["max_length"].
Proof. split; reflexivity. Qed.

Lemma color_clean v :
  clean_field color_field v = [] →
  ∃ s, v = Some (VStr s) ∧ re_search color_regex s = true
       ∧ (String.length s ≤ 7)%nat.
Proof.
  intros H. apply clean_field_nil in H as (x & -> & Hty & _ & Hv); [|done].
  destruct x as [|s|]; try done. exists s. split; [done|].
  unfold field_validators in Hv. simpl in Hv.
  apply Forall_cons in Hv as [H1 Hv]. apply Forall_cons in Hv as [H2 _].
  simpl in H1, H2. split; [done|]. by apply Nat.leb_le.
Qed.



(** ** Primary keys *)

Lemma reachable_keys_fresh (w : writer) :
  (∀ m data db db', w m data db = inr db' → save m data db = inr db') →
  ∀ db, reachable w db → keys_fresh db.
Proof.
  intros Hw db. induction 1 as [|db db' _ IH Hstep]; intros n.
  - rewrite objects_empty_db. split; constructor.
  - destruct Hstep as [m data _ Hsave|m id _ Hdel].
    + apply Hw, save_inr in Hsave as (_ & _ & _ & ->).
      destruct (IH n) as [Hle Hnd].
      rewrite objects_insert_row, last_id_insert_row.
      destruct (decide (model_name m = n)) as [<-|]; [|done].
      split.
      * apply Forall_app. split.
        -- eapply Forall_impl; [exact Hle|]. simpl. intros. lia.
        -- repeat constructor. simpl. lia.
      * rewrite fmap_app. apply NoDup_app. repeat split; [done| |].
        -- intros k Hk Hk'. simpl in Hk'. apply list_elem_of_singleton in Hk'.
           apply list_elem_of_fmap in Hk as (r & -> & Hr).
           eapply Forall_forall in Hle; [|exact Hr]. simpl in Hle. lia.
        -- simpl. apply NoDup_singleton.
    + destruct (IH n) as [Hle Hnd].
      pose proof (delete_cascade_sublist _ _ _ _ _ n Hdel) as Hsub.
      apply delete_cascade_sequences in Hdel.
      split.
      * apply Forall_forall. intros r Hr.
        unfold last_id. rewrite Hdel. fold (last_id db n).
        eapply Forall_forall in Hle; [exact Hle|]. by eapply elem_of_sublist.
      * eapply sublist_NoDup; [exact Hnd|]. by apply fmap_sublist.
Qed.

Lemma NoDup_fmap_eq {A B} (f : A → B) (l : list A) x y :
  NoDup (f <$> l) → x ∈ l → y ∈ l → f x = f y → x = y.
Proof.
  induction l as [|a l IH]; intros Hnd Hx Hy Heq; [by apply elem_of_nil in Hx|].
  rewrite fmap_cons in Hnd. apply NoDup_cons in Hnd as [Ha Hnd].
  apply elem_of_cons in Hx as [->|Hx]; apply elem_of_cons in Hy as [->|Hy];
    [done| | |by apply IH].
  - destruct Ha. rewrite Heq. by apply list_elem_of_fmap_2.
  - destruct Ha. rewrite <- Heq. by apply list_elem_of_fmap_2.
Qed.

Lemma filter_ext_elem {A} (P Q : A → Prop)
    `{∀ x, Decision (P x)} `{∀ x, Decision (Q x)} (l : list A) :
  (∀ x, x ∈ l → (P x ↔ Q x)) → filter P l = filter Q l.
Proof.
  induction l as [|a l IH]; intros Hext; [done|].
  rewrite !filter_cons.
  rewrite IH by (intros x Hx; apply Hext; by right).
  destruct (decide (P a)) as [HP|HP], (decide (Q a)) as [HQ|HQ]; try done.
  - destruct HQ. apply Hext; [by left|done].
  - destruct HP. apply Hext; [by left|done].
Qed.

Lemma filter_all {A} (P : A → Prop) `{∀ x, Decision (P x)} (l : list A) :
  Forall P l → filter P l = l.
Proof.
  induction 1 as [|x l Hx Hl IH]; [done|]. by rewrite filter_cons_True, IH.
Qed.

(** Removing by id the rows that satisfy [P] removes exactly those rows,
    because ids are distinct. *)
Lemma filter_by_keys (P : row → Prop) `{∀ r, Decision (P r)} (l : list row) :
  NoDup (pk <$> l) →
  filter (λ r, pk r ∉ pk <$> filter P l) l = filter (λ r, ¬ P r) l.
Proof.
  intros Hnd. apply filter_ext_elem. intros x Hx. split.
  - intros Hnot HP. apply Hnot, list_elem_of_fmap_2. by apply list_elem_of_filter.
  - intros HnP Hin. apply list_elem_of_fmap in Hin as (y & Heq & Hy).
    apply list_elem_of_filter in Hy as [HPy Hy].
    assert (x = y) as -> by by eapply (NoDup_fmap_eq pk l).
    done.
Qed.

(** ** Deleting a recipe *)

Lemma referrers_Recipe :
  referrers "Recipe" =
    [("RecipeIngredient", "recipe", CASCADE); ("RecipeTag", "recipe", CASCADE);
     ("Favorite", "recipe", CASCADE); ("ShoppingCart", "recipe", CASCADE)].
Proof. reflexivity. Qed.

Lemma delete_cascade_unfold fuel m ids db :
  delete_cascade (S fuel) m ids db =
    (db' ←? fold_left (collect_related (delete_cascade fuel) ids)
                      (referrers m) (inr db);
     inr (remove_rows m ids db')).
Proof. reflexivity. Qed.

Lemma refers_to_single f id r :
  refers_to f [id] r = true ↔ cols r !! f = Some (VRef id).
Proof.
  unfold refers_to. destruct (cols r !! f) as [[| |k]|]; try done.
  rewrite bool_decide_eq_true, list_elem_of_singleton. naive_solver.
Qed.

(** A referring model to which nothing refers loses exactly its referring
    rows. *)
Lemma collect_related_leaf fuel ids db m f :
  referrers m = [] → NoDup (pk <$> objects db m) →
  ∃ db',
    collect_related (delete_cascade (S fuel)) ids (inr db) (m, f, CASCADE) = inr db'
    ∧ objects db' m = filter (λ r, ¬ refers_to f ids r = true) (objects db m)
    ∧ (∀ n, n ≠ m → objects db' n = objects db n).
Proof.
  intros Hleaf Hnd. unfold collect_related, bind.
  rewrite <- (filter_by_keys _ _ Hnd).
  destruct (pk <$> filter (λ r, refers_to f ids r = true) (objects db m))
    as [|k hits] eqn:Hh.
  - exists db. repeat split.
    symmetry. apply filter_all, Forall_forall. intros r _. apply not_elem_of_nil.
  - rewrite delete_cascade_unfold, Hleaf. simpl.
    eexists. split; [done|]. split.
    + by rewrite objects_remove_rows, decide_True.
    + intros n Hn. by rewrite objects_remove_rows, decide_False.
Qed.

(** C4.  In a state the database can be in, deleting a recipe succeeds;
    it removes the recipe's row, and from each of RecipeIngredient,
    RecipeTag, Favorite and ShoppingCart exactly the rows whose [recipe]
    refers to it, in place and order: the rows that refer to other recipes
    stay, and so does every other table. *)
Theorem recipe_delete_cascades db id :
  reachable save db →
  ∃ db',
    delete Recipe id db = inr db'
    ∧ objects db' "Recipe" = filter (λ r, pk r ≠ id) (objects db "Recipe")
    ∧ (∀ n, n ∈ ["RecipeIngredient"; "RecipeTag"; "Favorite"; "ShoppingCart"] →
         objects db' n
         = filter (λ r, cols r !! "recipe" ≠ Some (VRef id)) (objects db n))
    ∧ (∀ n, n ∉ ["Recipe"; "RecipeIngredient"; "RecipeTag"; "Favorite";
                  "ShoppingCart"] →
         objects db' n = objects db n).
Proof.
  intros Hdb.
  pose proof (reachable_keys_fresh save save_refines_save db Hdb) as Hk.
  unfold delete. change (length installed_models) with 8%nat.
  change (model_name Recipe) with "Recipe".
  rewrite delete_cascade_unfold, referrers_Recipe.
  cbn [fold_left].
  destruct (collect_related_leaf 6 [id] db "RecipeIngredient" "recipe" eq_refl)
    as (db1 & E1 & T1 & O1); [apply Hk|]. rewrite E1.
  destruct (collect_related_leaf 6 [id] db1 "RecipeTag" "recipe" eq_refl)
    as (db2 & E2 & T2 & O2); [rewrite O1 by done; apply Hk|]. rewrite E2.
  destruct (collect_related_leaf 6 [id] db2 "Favorite" "recipe" eq_refl)
    as (db3 & E3 & T3 & O3); [rewrite O2, O1 by done; apply Hk|]. rewrite E3.
  destruct (collect_related_leaf 6 [id] db3 "ShoppingCart" "recipe" eq_refl)
    as (db4 & E4 & T4 & O4); [rewrite O3, O2, O1 by done; apply Hk|]. rewrite E4.
  simpl. eexists. split; [reflexivity|].
  assert (∀ l : list row,
            filter (λ r, ¬ refers_to "recipe" [id] r = true) l
            = filter (λ r, cols r !! "recipe" ≠ Some (VRef id)) l) as Hrefs.
  { intros l. apply list_filter_iff. intros r. by rewrite refers_to_single. }
  split; [|split].
  - rewrite objects_remove_rows, decide_True by done.
    rewrite O4, O3, O2, O1 by done.
    apply list_filter_iff. intros r. by rewrite list_elem_of_singleton.
  - intros n Hn. rewrite <- Hrefs. field_cases Hn;
      rewrite objects_remove_rows, decide_False by done.
    + by rewrite O4, O3, O2, T1 by done.
    + by rewrite O4, O3, T2, O1 by done.
    + by rewrite O4, T3, O2, O1 by done.
    + by rewrite T4, O3, O2, O1 by done.
  - intros n Hn. rewrite !not_elem_of_cons in Hn.
    destruct Hn as (? & ? & ? & ? & ? & _).
    rewrite objects_remove_rows, decide_False by done.
    by rewrite O4, O3, O2, O1 by done.
Qed.

Lemma recipe_delete_cascades_witness :
  ∃ db',
    delete Recipe 5 sample_db = inr db'
    ∧ objects db' "Recipe" = filter (λ r, pk r ≠ 5) (objects sample_db "Recipe")
    ∧ (∀ n, n ∈ ["RecipeIngredient"; "RecipeTag"; "Favorite"; "ShoppingCart"] →
         objects db' n
         = filter (λ r, cols r !! "recipe" ≠ Some (VRef 5)) (objects sample_db n))
    ∧ (∀ n, n ∉ ["Recipe"; "RecipeIngredient"; "RecipeTag"; "Favorite";
                  "ShoppingCart"] →
         objects db' n = objects sample_db n).
Proof. apply recipe_delete_cascades, sample_db_stored. Defined.

(** ** Default ordering *)

#[global] Instance value_le_trans : Transitive value_le.
Proof.
  intros [[x|x|x]|] [[y|y|y]|] [[z|z|z]|]; simpl; try done; try lia.
  apply (@transitivity _ String.le _).
Qed.

#[global] Instance value_le_total : Total value_le.
Proof.
  intros [[x|x|x]|] [[y|y|y]|]; simpl; try (by left); try (by right); try lia.
  apply (total String.le).
Qed.

#[global] Instance key_le_trans o : Transitive (key_le o).
Proof.
  intros a b c. unfold key_le. destruct (order_key o) as [[] f]; intros H1 H2.
  - by etrans.
  - by etrans.
Qed.

#[global] Instance key_le_total o : Total (key_le o).
Proof.
  intros a b. unfold key_le. destruct (order_key o) as [[] f]; apply total; apply _.
Qed.

#[global] Instance row_le_trans os : Transitive (row_le os).
Proof.
  induction os as [|o os IH]; intros a b c; simpl; [done|].
  intros [Hab Hab'] [Hbc Hbc']. split; [by etrans|].
  intros Hca. eapply IH.
  - apply Hab'. by etrans.
  - apply Hbc'. by etrans.
Qed.

#[global] Instance row_le_total os : Total (row_le os).
Proof.
  induction os as [|o os IH]; intros a b; simpl; [by left|].
  destruct (decide (key_le o a b)) as [Hab|Hab], (decide (key_le o b a)) as [Hba|Hba].
  - destruct (IH a b); [left|right]; done.
  - left. done.
  - right. done.
  - destruct (total (key_le o) a b); done.
Qed.

Lemma StronglySorted_impl {A} (R S : A → A → Prop) l :
  (∀ a b, R a b → S a b) → StronglySorted R l → StronglySorted S l.
Proof.
  intros HRS. induction 1 as [|x l Hl IH Hx]; constructor; [done|].
  eapply Forall_impl; [exact Hx|]. by apply HRS.
Qed.

Lemma all_objects_sorted m db :
  StronglySorted (row_le (ordering (Meta m))) (all_objects m db)
  ∧ all_objects m db ≡ₚ objects db (model_name m).
Proof.
  unfold all_objects. split.
  - apply StronglySorted_merge_sort; apply _.
  - apply merge_sort_Permutation.
Qed.

(** C9.  Listing a table returns all its rows, each once: recipes with
    descending [id], tags and ingredients with ascending [name]. *)
Theorem default_ordering db :
  (all_objects Recipe db ≡ₚ objects db "Recipe"
   ∧ StronglySorted (λ a b, pk b ≤ pk a) (all_objects Recipe db))
  ∧ (all_objects Tag db ≡ₚ objects db "Tag"
     ∧ StronglySorted (λ a b, value_le (cols a !! "name") (cols b !! "name"))
                      (all_objects Tag db))
  ∧ (all_objects Ingredient db ≡ₚ objects db "Ingredient"
     ∧ StronglySorted (λ a b, value_le (cols a !! "name") (cols b !! "name"))
                      (all_objects Ingredient db)).
Proof.
  repeat split; try apply all_objects_sorted.
  - eapply StronglySorted_impl; [|apply (all_objects_sorted Recipe)].
    intros a b [H _]. exact H.
  - eapply StronglySorted_impl; [|apply (all_objects_sorted Tag)].
    intros a b [H _]. exact H.
  - eapply StronglySorted_impl; [|apply (all_objects_sorted Ingredient)].
    intros a b [H _]. exact H.
Qed.

(** Descending [id] is newest first: a recipe that has just been stored
    heads the listing. *)
Lemma newest_recipe_listed_first db data db' :
  reachable save db → save Recipe data db = inr db' →
  head (all_objects Recipe db') = Some (Row (last_id db "Recipe" + 1) data).
Proof.
  intros Hdb Hsave.
  destruct (reachable_keys_fresh save save_refines_save db Hdb "Recipe") as [Hle _].
  apply save_inr in Hsave as (_ & _ & _ & ->).
  change (model_name Recipe) with "Recipe".
  destruct (all_objects_sorted Recipe (insert_row "Recipe" data db)) as [Hs Hp].
  simpl in Hp. rewrite objects_insert_row, decide_True in Hp by done.
  set (new := Row (last_id db "Recipe" + 1) data) in *.
  destruct (all_objects Recipe (insert_row "Recipe" data db)) as [|h t].
  { apply Permutation_length in Hp. rewrite length_app in Hp. simpl in Hp. lia. }
  simpl. f_equal.
  assert (h ∈ objects db "Recipe" ++ [new]) as Hh by (rewrite <- Hp; by left).
  apply elem_of_app in Hh as [Hold|Hnew]; [|by apply list_elem_of_singleton in Hnew].
  assert (new ∈ h :: t) as Hin.
  { rewrite Hp. apply elem_of_app. right. by left. }
  apply elem_of_cons in Hin as [->|Hin]; [done|].
  apply StronglySorted_inv in Hs as [_ Hs].
  eapply Forall_forall in Hs; [|exact Hin]. destruct Hs as [Hs _].
  eapply Forall_forall in Hle; [|exact Hold].
  unfold key_le in Hs. simpl in Hs. lia.
Qed.

(** On text, the order of values is the order of strings. *)
Lemma value_le_text x y : value_le (Some (VStr x)) (Some (VStr y)) ↔ String.le x y.
Proof. done. Qed.

Example sample_recipes_listed :
  pk <$> all_objects Recipe sample_db = [5; 4; 3; 2; 1].
Proof. vm_compute. reflexivity. Qed.

Example sample_ingredients_listed :
  (λ r, text_of r "name") <$> all_objects Ingredient sample_db
  = [Some "beet"; Some "egg"].
Proof. vm_compute. reflexivity. Qed.

(** ** Storage of small integers *)



(** [save] runs no validator: a cooking time of 601 minutes is stored when
    the write bypasses validation, and 40000 is not. *)
Example save_without_validation :
  save Recipe (recipe_data "Roast" "Roast it." 601) catalogue_db
    = inr (insert_row "Recipe" (recipe_data "Roast" "Roast it." 601) catalogue_db)
  ∧ save Recipe (recipe_data "Roast" "Roast it." 40000) catalogue_db
    = inl (IntegrityError "column").
Proof. split; vm_compute; reflexivity. Qed.



(** * Further properties of the declarations *)

(** ** Foreign keys *)

Lemma referrers_spec t m' f rule :
  (m', f, rule) ∈ referrers t ↔
  ∃ m fld, m ∈ installed_models ∧ fld ∈ model_fields m
           ∧ model_name m = m' ∧ fname fld = f ∧ ftype fld = ForeignKey t rule.
Proof.
  unfold referrers. rewrite list_elem_of_In, in_flat_map. split.
  - intros (m & Hm & Hin). apply in_flat_map in Hin as (fld & Hfld & Hin).
    exists m, fld. rewrite !list_elem_of_In. repeat split; try done;
      destruct (ftype fld) as [to rule'| | | | | |]; try done;
      destruct (String.eqb to t) eqn:Heq; try done;
      apply String.eqb_eq in Heq as ->;
      destruct Hin as [Hin|[]]; congruence.
  - intros (m & fld & Hm & Hfld & <- & <- & Hty).
    exists m. split; [by apply list_elem_of_In|].
    apply in_flat_map. exists fld. split; [by apply list_elem_of_In|].
    rewrite Hty, String.eqb_refl. by left.
Qed.

Lemma has_pk_elem db m id :
  has_pk db m id = true ↔ ∃ r, r ∈ objects db m ∧ pk r = id.
Proof.
  unfold has_pk. rewrite existsb_exists. split.
  - intros (r & Hr & Heq). exists r. split; [by apply list_elem_of_In|lia].
  - intros (r & Hr & Heq). exists r. split; [by apply list_elem_of_In|lia].
Qed.

Lemma fold_collect_related_inl rec ids refs e :
  fold_left (collect_related rec ids) refs (inl e) = inl e.
Proof. induction refs as [|[[m' f] rule] refs IH]; [done|]. simpl. exact IH. Qed.

Lemma refers_to_hits f ids (l : list row) r :
  r ∈ l → refers_to f ids r = true →
  pk r ∈ pk <$> filter (λ r, refers_to f ids r = true) l.
Proof. intros Hr Href. apply list_elem_of_fmap_2. by apply list_elem_of_filter. Qed.

Lemma collect_related_step rec ids db m' f rule :
  collect_related rec ids (inr db) (m', f, rule) =
    match pk <$> filter (λ r, refers_to f ids r = true) (objects db m') with
    | [] => inr db
    | hits =>
        match rule with
        | CASCADE => rec m' hits db
        | PROTECT => inl ProtectedError
        end
    end.
Proof. reflexivity. Qed.

Lemma fold_collect_related_sublist fuel ids refs db db1 n :
  fold_left (collect_related (delete_cascade fuel) ids) refs (inr db) = inr db1 →
  objects db1 n `sublist_of` objects db n.
Proof.
  intros Hfold.
  apply (collect_related_preserves
           (λ d d', objects d' n `sublist_of` objects d n)) in Hfold
    as (d0 & [= <-] & Hsub); [done|done| |].
  - intros d1 d2 d3 H12 H23. by etrans.
  - intros m0 hits d d'. apply delete_cascade_sublist.
Qed.

(** What deleting leaves behind: the rows asked for are gone, nothing
    refers to them any more, and every reference still resolves. *)
Lemma delete_cascade_resolves fuel m ids db db' :
  delete_cascade fuel m ids db = inr db' → references_resolve db →
  references_resolve db' ∧ (∀ r, r ∈ objects db' m → pk r ∉ ids).
Proof.
  revert m ids db db'.
  induction fuel as [|fuel IH]; intros m ids db db'; [done|].
  rewrite delete_cascade_unfold. intros H Hdb.
  destruct (fold_left (collect_related (delete_cascade fuel) ids)
              (referrers m) (inr db)) as [e|db1] eqn:Hfold; simpl in H; [done|].
  injection H as <-.
  assert (references_resolve db1
          ∧ ∀ m' f rule r, (m', f, rule) ∈ referrers m → r ∈ objects db1 m' →
              refers_to f ids r = false) as [Hdb1 Hnone].
  { clear -IH Hfold Hdb. revert db db1 Hfold Hdb.
    induction (referrers m) as [|[[m' f] rule] refs IHr]; intros db db1 Hfold Hdb.
    - simpl in Hfold. injection Hfold as <-. split; [done|].
      intros ? ? ? ? Hin. by apply elem_of_nil in Hin.
    - cbn [fold_left] in Hfold. rewrite collect_related_step in Hfold.
      destruct (pk <$> filter (λ r, refers_to f ids r = true) (objects db m'))
        as [|k hits] eqn:Hhits.
      + pose proof (fold_collect_related_sublist _ _ _ _ _ m' Hfold) as Hsub.
        apply IHr in Hfold as [Hdb1 Hnone]; [|done]. split; [done|].
        intros m0 f0 rule0 r Hin Hr.
        apply elem_of_cons in Hin as [[= -> -> ->]|Hin]; [|by eapply Hnone].
        apply not_true_iff_false. intros Href.
        assert (r ∈ objects db m') as Hr0 by by eapply elem_of_sublist.
        pose proof (refers_to_hits f ids _ r Hr0 Href) as Hk.
        rewrite Hhits in Hk. by apply elem_of_nil in Hk.
      + destruct rule; [|by rewrite fold_collect_related_inl in Hfold].
        destruct (delete_cascade fuel m' (k :: hits) db) as [e|db0] eqn:Hdel;
          [by rewrite fold_collect_related_inl in Hfold|].
        pose proof (delete_cascade_sublist _ _ _ _ _ m' Hdel) as Hsub0.
        apply IH in Hdel as [Hdb0 Hgone]; [|done].
        pose proof (fold_collect_related_sublist _ _ _ _ _ m' Hfold) as Hsub.
        apply IHr in Hfold as [Hdb1 Hnone]; [|done]. split; [done|].
        intros m0 f0 rule0 r Hin Hr.
        apply elem_of_cons in Hin as [[= -> -> ->]|Hin]; [|by eapply Hnone].
        apply not_true_iff_false. intros Href.
        assert (r ∈ objects db0 m') as Hr0 by by eapply elem_of_sublist.
        apply (Hgone r Hr0). rewrite <- Hhits.
        apply refers_to_hits; [|done]. by eapply elem_of_sublist. }
  split.
  - intros m2 fld t rule r id Hm2 Hfld Hty Hr Hcol.
    assert (r ∈ objects db1 (model_name m2)) as Hr1.
    { eapply elem_of_sublist; [exact Hr|]. rewrite objects_remove_rows.
      destruct (decide (m = model_name m2)) as [->|]; [apply sublist_filter|done]. }
    pose proof (Hdb1 m2 fld t rule r id Hm2 Hfld Hty Hr1 Hcol) as Hpk.
    apply has_pk_elem in Hpk as (target & Htarget & Hid).
    apply has_pk_elem. exists target. split; [|done].
    rewrite objects_remove_rows. destruct (decide (m = t)) as [->|]; [|done].
    apply list_elem_of_filter. split; [|done]. intros Hin.
    assert (refers_to (fname fld) ids r = false) as Hfalse.
    { apply (Hnone (model_name m2) (fname fld) rule r); [|done].
      apply referrers_spec. by exists m2, fld. }
    unfold refers_to in Hfalse. rewrite Hcol in Hfalse.
    apply bool_decide_eq_false in Hfalse. apply Hfalse. by rewrite <- Hid.
  - intros r Hr. rewrite objects_remove_rows, decide_True in Hr by done.
    by apply list_elem_of_filter in Hr as [? _].
Qed.

Lemma save_resolves m data db db' :
  m ∈ installed_models → save m data db = inr db' →
  references_resolve db → references_resolve db'.
Proof.
  intros Hm Hsave Hdb. apply save_inr in Hsave as (_ & Hrefs & _ & ->).
  intros m2 fld t rule r id Hm2 Hfld Hty Hr Hcol.
  apply has_pk_insert_row. rewrite objects_insert_row in Hr.
  destruct (decide (model_name m = model_name m2)) as [Heq|];
    [|by eapply Hdb].
  apply installed_model_names in Heq as <-; [|done..].
  apply elem_of_app in Hr as [Hr|Hr]; [by eapply Hdb|].
  apply list_elem_of_singleton in Hr as ->. simpl in Hcol.
  eapply forallb_forall in Hrefs; [|apply list_elem_of_In; exact Hfld].
  unfold reference_ok in Hrefs. by rewrite Hty, Hcol in Hrefs.
Qed.

(** The references of every reachable state resolve. *)
Lemma reachable_references_resolve db : reachable save db → references_resolve db.
Proof.
  induction 1 as [|db db' _ IH Hstep].
  - intros m fld t rule r id _ _ _ Hr. rewrite objects_empty_db in Hr.
    by apply elem_of_nil in Hr.
  - destruct Hstep as [m data Hm Hsave|m id Hm Hdel].
    + by eapply save_resolves.
    + by apply delete_cascade_resolves in Hdel as [? _].
Qed.

(** X1.  Referential integrity.  In every state the database can reach,
    each foreign key of each stored row refers to a row that exists; a write
    whose foreign key names a row that does not exist is refused, with or
    without validation. *)
Theorem foreign_keys_resolve :
  (∀ db, reachable save db → references_resolve db)
  ∧ (∀ m fld t rule data db id,
       fld ∈ model_fields m → ftype fld = ForeignKey t rule →
       data !! fname fld = Some (VRef id) → has_pk db t id = false →
       (∃ what, save m data db = inl (IntegrityError what))
       ∧ (∃ e, clean_and_save m data db = inl e)).
Proof.
  split; [apply reachable_references_resolve|].
  - intros m fld t rule data db id Hfld Hty Hcol Hpk.
    assert (∃ what, save m data db = inl (IntegrityError what)) as [what Hsave].
    { unfold save.
      destruct (negb (forallb _ (model_fields m))); [by eauto|].
      destruct (forallb (λ f, reference_ok db (ftype f) (data !! fname f))
                  (model_fields m)) eqn:Hall; [|by eauto].
      eapply forallb_forall in Hall; [|apply list_elem_of_In; exact Hfld].
      unfold reference_ok in Hall. rewrite Hty, Hcol in Hall. congruence. }
    split; [by eauto|]. unfold clean_and_save.
    destruct (full_clean m data); [rewrite Hsave|]; by eauto.
Qed.

Lemma foreign_keys_resolve_witness :
  references_resolve sample_db
  ∧ ((∃ what, save Favorite (pair_data "user" 1 "recipe" 9) sample_db
              = inl (IntegrityError what))
     ∧ (∃ e, clean_and_save Favorite (pair_data "user" 1 "recipe" 9) sample_db
             = inl e)).
Proof.
  split.
  - apply (proj1 foreign_keys_resolve), sample_db_stored.
  - apply (proj2 foreign_keys_resolve Favorite
             (Field "recipe" (ForeignKey "Recipe" CASCADE) false [])
             "Recipe" CASCADE _ _ 9).
    + simpl. right. left.
    + reflexivity.
    + reflexivity.
    + vm_compute. reflexivity.
Defined.

(** ** Deletion never fails *)

(** A model whose referring foreign keys all cascade, to models that can
    be deleted from with the fuel that is left, can be deleted from. *)
Lemma cascade_succeeds fuel n :
  Forall (λ ref, ref.2 = CASCADE
                 ∧ ∀ ids db, ∃ db', delete_cascade fuel ref.1.1 ids db = inr db')
         (referrers n) →
  ∀ ids db, ∃ db', delete_cascade (S fuel) n ids db = inr db'.
Proof.
  intros Hrefs ids db. rewrite delete_cascade_unfold.
  assert (∃ db1, fold_left (collect_related (delete_cascade fuel) ids)
                   (referrers n) (inr db) = inr db1) as [db1 ->].
  { revert db. induction Hrefs as [|[[m' f] rule] refs [Hrule Hrec] _ IH];
      intros db; [by eexists|].
    cbn [fold_left]. rewrite collect_related_step. simpl in Hrule, Hrec.
    destruct (pk <$> filter _ (objects db m')) as [|k hits]; [apply IH|].
    rewrite Hrule. destruct (Hrec (k :: hits) db) as [db0 ->]. apply IH. }
  simpl. by eexists.
Qed.

Ltac eval_referrers :=
  match goal with
  | |- context [referrers ?n] =>
      let l := eval vm_compute in (referrers n) in change (referrers n) with l
  end.

Ltac cascade :=
  apply cascade_succeeds; eval_referrers;
  repeat (constructor; [split; [reflexivity|cbn [fst snd]; cascade]|]);
  constructor.

(** X2.  Deleting a row of any model of the module succeeds (in any
    database, whether the row exists or not): no foreign key protects its
    target, and the cascade ends within the depth of the schema. *)
Theorem delete_succeeds m id db :
  m ∈ installed_models → ∃ db', delete m id db = inr db'.
Proof.
  intros Hm. unfold delete. change (length installed_models) with 8%nat.
  unfold installed_models in Hm.
  field_cases Hm;
    cbn [model_name User Recipe Tag Ingredient RecipeIngredient RecipeTag
         Favorite ShoppingCart]; cascade.
Qed.

Lemma delete_succeeds_witness : ∃ db', delete User 1 sample_db = inr db'.
Proof. apply delete_succeeds. installed. Defined.

(** ** Deleting tags, ingredients and users *)

Lemma refers_to_filter f id (l : list row) :
  filter (λ r, ¬ refers_to f [id] r = true) l
  = filter (λ r, cols r !! f ≠ Some (VRef id)) l.
Proof. apply list_filter_iff. intros r. by rewrite refers_to_single. Qed.

Lemma not_in_single_filter id (l : list row) :
  filter (λ r, pk r ∉ [id]) l = filter (λ r, pk r ≠ id) l.
Proof. apply list_filter_iff. intros r. by rewrite list_elem_of_singleton. Qed.

(** A model with one referring foreign key, from a model to which nothing
    refers. *)
Lemma single_referrer_deleted fuel n m' f ids db :
  referrers n = [(m', f, CASCADE)] → referrers m' = [] → n ≠ m' →
  NoDup (pk <$> objects db m') →
  ∃ db',
    delete_cascade (S (S fuel)) n ids db = inr db'
    ∧ objects db' n = filter (λ r, pk r ∉ ids) (objects db n)
    ∧ objects db' m' = filter (λ r, ¬ refers_to f ids r = true) (objects db m')
    ∧ (∀ k, k ≠ n → k ≠ m' → objects db' k = objects db k).
Proof.
  intros Hn Hleaf Hne Hnd. rewrite delete_cascade_unfold, Hn. cbn [fold_left].
  destruct (collect_related_leaf fuel ids db m' f Hleaf Hnd)
    as (db1 & -> & T1 & O1).
  simpl. eexists. split; [reflexivity|]. split; [|split].
  - by rewrite objects_remove_rows, decide_True, O1.
  - by rewrite objects_remove_rows, decide_False.
  - intros k Hk Hk'. rewrite objects_remove_rows, decide_False by done.
    by apply O1.
Qed.

(** X3.  In a state the database can be in, deleting a tag removes the
    tag's row and exactly the RecipeTag rows whose [tag] refers to it, and
    deleting an ingredient removes the ingredient's row and exactly the
    RecipeIngredient rows whose [ingredient] refers to it; every other table
    stays as it is (recipes are never deleted with their tags or
    ingredients). *)
Theorem tag_and_ingredient_delete_cascade db id :
  reachable save db →
  (∃ db',
     delete Tag id db = inr db'
     ∧ objects db' "Tag" = filter (λ r, pk r ≠ id) (objects db "Tag")
     ∧ objects db' "RecipeTag"
       = filter (λ r, cols r !! "tag" ≠ Some (VRef id)) (objects db "RecipeTag")
     ∧ (∀ n, n ≠ "Tag" → n ≠ "RecipeTag" → objects db' n = objects db n))
  ∧ (∃ db',
       delete Ingredient id db = inr db'
       ∧ objects db' "Ingredient"
         = filter (λ r, pk r ≠ id) (objects db "Ingredient")
       ∧ objects db' "RecipeIngredient"
         = filter (λ r, cols r !! "ingredient" ≠ Some (VRef id))
                  (objects db "RecipeIngredient")
       ∧ (∀ n, n ≠ "Ingredient" → n ≠ "RecipeIngredient" →
            objects db' n = objects db n)).
Proof.
  intros Hdb.
  pose proof (reachable_keys_fresh save save_refines_save db Hdb) as Hk.
  unfold delete. change (length installed_models) with 8%nat. split.
  - destruct (single_referrer_deleted 6 "Tag" "RecipeTag" "tag" [id] db)
      as (db' & Hdel & H1 & H2 & H3); [done..|apply Hk|].
    exists db'. by rewrite <- not_in_single_filter, <- refers_to_filter.
  - destruct (single_referrer_deleted 6 "Ingredient" "RecipeIngredient"
                "ingredient" [id] db)
      as (db' & Hdel & H1 & H2 & H3); [done..|apply Hk|].
    exists db'. by rewrite <- not_in_single_filter, <- refers_to_filter.
Qed.

Lemma tag_and_ingredient_delete_cascade_witness :
  (∃ db',
     delete Tag 1 sample_db = inr db'
     ∧ objects db' "Tag" = filter (λ r, pk r ≠ 1) (objects sample_db "Tag")
     ∧ objects db' "RecipeTag"
       = filter (λ r, cols r !! "tag" ≠ Some (VRef 1))
                (objects sample_db "RecipeTag")
     ∧ (∀ n, n ≠ "Tag" → n ≠ "RecipeTag" →
          objects db' n = objects sample_db n))
  ∧ (∃ db',
       delete Ingredient 1 sample_db = inr db'
       ∧ objects db' "Ingredient"
         = filter (λ r, pk r ≠ 1) (objects sample_db "Ingredient")
       ∧ objects db' "RecipeIngredient"
         = filter (λ r, cols r !! "ingredient" ≠ Some (VRef 1))
                  (objects sample_db "RecipeIngredient")
       ∧ (∀ n, n ≠ "Ingredient" → n ≠ "RecipeIngredient" →
            objects db' n = objects sample_db n)).
Proof. apply tag_and_ingredient_delete_cascade, sample_db_stored. Defined.

Lemma referrers_User :
  referrers "User" =
    [("Recipe", "author", CASCADE); ("Favorite", "user", CASCADE);
     ("ShoppingCart", "user", CASCADE)].
Proof. reflexivity. Qed.

(** Deleting several recipes at once, as the cascade from their author
    does. *)
Lemma recipes_deleted fuel ids db :
  (∀ n, NoDup (pk <$> objects db n)) →
  ∃ db',
    delete_cascade (S (S fuel)) "Recipe" ids db = inr db'
    ∧ objects db' "Recipe" = filter (λ r, pk r ∉ ids) (objects db "Recipe")
    ∧ (∀ n, n ∈ ["RecipeIngredient"; "RecipeTag"; "Favorite"; "ShoppingCart"] →
         objects db' n
         = filter (λ r, ¬ refers_to "recipe" ids r = true) (objects db n))
    ∧ (∀ n, n ∉ ["Recipe"; "RecipeIngredient"; "RecipeTag"; "Favorite";
                  "ShoppingCart"] →
         objects db' n = objects db n).
Proof.
  intros Hk. rewrite delete_cascade_unfold, referrers_Recipe. cbn [fold_left].
  destruct (collect_related_leaf fuel ids db "RecipeIngredient" "recipe" eq_refl)
    as (db1 & E1 & T1 & O1); [apply Hk|]. rewrite E1.
  destruct (collect_related_leaf fuel ids db1 "RecipeTag" "recipe" eq_refl)
    as (db2 & E2 & T2 & O2); [rewrite O1 by done; apply Hk|]. rewrite E2.
  destruct (collect_related_leaf fuel ids db2 "Favorite" "recipe" eq_refl)
    as (db3 & E3 & T3 & O3); [rewrite O2, O1 by done; apply Hk|]. rewrite E3.
  destruct (collect_related_leaf fuel ids db3 "ShoppingCart" "recipe" eq_refl)
    as (db4 & E4 & T4 & O4); [rewrite O3, O2, O1 by done; apply Hk|]. rewrite E4.
  simpl. eexists. split; [reflexivity|]. split; [|split].
  - rewrite objects_remove_rows, decide_True by done.
    by rewrite O4, O3, O2, O1 by done.
  - intros n Hn. field_cases Hn;
      rewrite objects_remove_rows, decide_False by done.
    + by rewrite O4, O3, O2, T1 by done.
    + by rewrite O4, O3, T2, O1 by done.
    + by rewrite O4, T3, O2, O1 by done.
    + by rewrite T4, O3, O2, O1 by done.
  - intros n Hn. rewrite !not_elem_of_cons in Hn.
    destruct Hn as (? & ? & ? & ? & ? & _).
    rewrite objects_remove_rows, decide_False by done.
    by rewrite O4, O3, O2, O1 by done.
Qed.

Lemma refers_to_nil f r : refers_to f [] r = false.
Proof.
  unfold refers_to. by destruct (cols r !! f) as [[| |k]|].
Qed.

Lemma NoDup_pk_filter (P : row → Prop) `{∀ r, Decision (P r)} (l : list row) :
  NoDup (pk <$> l) → NoDup (pk <$> filter P l).
Proof.
  intros Hnd. eapply sublist_NoDup; [exact Hnd|].
  apply fmap_sublist, sublist_filter.
Qed.

Ltac not_listed :=
  rewrite !not_elem_of_cons; repeat split; first [done|apply not_elem_of_nil].

(** X4.  In a state the database can be in, deleting a user removes the
    user's row, the recipes the user is the author of, the RecipeIngredient
    and RecipeTag rows of those recipes, and the Favorite and ShoppingCart
    rows that belong to the user or point at one of those recipes (also
    those of other users); tags, ingredients and all other rows stay. *)
Theorem user_delete_cascades db u :
  reachable save db →
  ∃ db' authored,
    authored = pk <$> filter (λ r, cols r !! "author" = Some (VRef u))
                            (objects db "Recipe")
    ∧ delete User u db = inr db'
    ∧ objects db' "User" = filter (λ r, pk r ≠ u) (objects db "User")
    ∧ objects db' "Recipe"
      = filter (λ r, cols r !! "author" ≠ Some (VRef u)) (objects db "Recipe")
    ∧ (∀ n, n ∈ ["RecipeIngredient"; "RecipeTag"] →
         objects db' n
         = filter (λ r, ¬ refers_to "recipe" authored r = true) (objects db n))
    ∧ (∀ n, n ∈ ["Favorite"; "ShoppingCart"] →
         objects db' n
         = filter (λ r, cols r !! "user" ≠ Some (VRef u)
                        ∧ ¬ refers_to "recipe" authored r = true)
                  (objects db n))
    ∧ (∀ n, n ∈ ["Tag"; "Ingredient"] → objects db' n = objects db n).
Proof.
  intros Hdb.
  assert (∀ n, NoDup (pk <$> objects db n)) as Hk.
  { intros n. apply (reachable_keys_fresh save save_refines_save db Hdb). }
  set (hits := pk <$> filter (λ r, refers_to "author" [u] r = true)
                             (objects db "Recipe")).
  assert (pk <$> filter (λ r, cols r !! "author" = Some (VRef u))
                        (objects db "Recipe") = hits) as Hauthored.
  { unfold hits. f_equal. apply list_filter_iff. intros r.
    by rewrite refers_to_single. }
  assert (∃ db1,
    collect_related (delete_cascade 7) [u] (inr db) ("Recipe", "author", CASCADE)
      = inr db1
    ∧ objects db1 "Recipe" = filter (λ r, pk r ∉ hits) (objects db "Recipe")
    ∧ (∀ n, n ∈ ["RecipeIngredient"; "RecipeTag"; "Favorite"; "ShoppingCart"] →
         objects db1 n
         = filter (λ r, ¬ refers_to "recipe" hits r = true) (objects db n))
    ∧ (∀ n, n ∉ ["Recipe"; "RecipeIngredient"; "RecipeTag"; "Favorite";
                  "ShoppingCart"] →
         objects db1 n = objects db n)) as (db1 & E1 & R1 & A1 & O1).
  { rewrite collect_related_step. fold hits.
    destruct hits as [|k hits'] eqn:Hhits.
    - exists db. split; [done|]. split; [|split; [|done]].
      + symmetry. apply filter_all, Forall_forall. intros r _.
        apply not_elem_of_nil.
      + intros n _. symmetry. apply filter_all, Forall_forall. intros r _.
        by rewrite refers_to_nil.
    - apply (recipes_deleted 5 (k :: hits') db Hk). }
  destruct (collect_related_leaf 6 [u] db1 "Favorite" "user" eq_refl)
    as (db2 & E2 & T2 & O2).
  { rewrite A1 by (repeat ((by left) || right)). apply NoDup_pk_filter, Hk. }
  destruct (collect_related_leaf 6 [u] db2 "ShoppingCart" "user" eq_refl)
    as (db3 & E3 & T3 & O3).
  { rewrite O2 by done. rewrite A1 by (repeat ((by left) || right)).
    apply NoDup_pk_filter, Hk. }
  unfold delete. change (length installed_models) with 8%nat.
  change (model_name User) with "User".
  rewrite delete_cascade_unfold, referrers_User. cbn [fold_left].
  rewrite E1, E2, E3. simpl.
  eexists _, hits. split; [done|]. split; [reflexivity|].
  split; [|split; [|split; [|split]]].
  - rewrite objects_remove_rows, decide_True by done.
    rewrite O3, O2, O1 by (done || not_listed).
    apply not_in_single_filter.
  - rewrite objects_remove_rows, decide_False by done.
    rewrite O3, O2, R1 by done. unfold hits.
    rewrite (filter_by_keys _ _ (Hk "Recipe")). apply refers_to_filter.
  - intros n Hn. rewrite objects_remove_rows.
    field_cases Hn; rewrite decide_False by done;
      rewrite O3, O2 by done; apply A1; repeat ((by left) || right).
  - intros n Hn. rewrite objects_remove_rows.
    field_cases Hn; rewrite decide_False by done.
    + rewrite O3, T2 by done. rewrite A1 by (repeat ((by left) || right)).
      rewrite list_filter_filter. apply list_filter_iff. intros r.
      by rewrite refers_to_single.
    + rewrite T3, O2 by done. rewrite A1 by (repeat ((by left) || right)).
      rewrite list_filter_filter. apply list_filter_iff. intros r.
      by rewrite refers_to_single.
  - intros n Hn. rewrite objects_remove_rows.
    field_cases Hn; rewrite decide_False by done;
      rewrite O3, O2 by done; apply O1; not_listed.
Qed.

Lemma user_delete_cascades_witness :
  ∃ db' authored,
    authored = pk <$> filter (λ r, cols r !! "author" = Some (VRef 1))
                            (objects sample_db "Recipe")
    ∧ delete User 1 sample_db = inr db'
    ∧ objects db' "User" = filter (λ r, pk r ≠ 1) (objects sample_db "User")
    ∧ objects db' "Recipe"
      = filter (λ r, cols r !! "author" ≠ Some (VRef 1))
               (objects sample_db "Recipe")
    ∧ (∀ n, n ∈ ["RecipeIngredient"; "RecipeTag"] →
         objects db' n
         = filter (λ r, ¬ refers_to "recipe" authored r = true)
                  (objects sample_db n))
    ∧ (∀ n, n ∈ ["Favorite"; "ShoppingCart"] →
         objects db' n
         = filter (λ r, cols r !! "user" ≠ Some (VRef 1)
                        ∧ ¬ refers_to "recipe" authored r = true)
                  (objects sample_db n))
    ∧ (∀ n, n ∈ ["Tag"; "Ingredient"] → objects db' n = objects sample_db n).
Proof. apply user_delete_cascades, sample_db_stored. Defined.

(** ** Deleting what is not there *)

Lemma fold_collect_related_none rec ids refs db :
  (∀ m' f rule, (m', f, rule) ∈ refs →
     filter (λ r, refers_to f ids r = true) (objects db m') = []) →
  fold_left (collect_related rec ids) refs (inr db) = inr db.
Proof.
  induction refs as [|[[m' f] rule] refs IH]; intros Hnone; [done|].
  cbn [fold_left]. rewrite collect_related_step.
  rewrite (Hnone m' f rule) by left. simpl.
  apply IH. intros m0 f0 rule0 Hin. apply (Hnone m0 f0 rule0). by right.
Qed.

Lemma refers_to_elem f ids r :
  refers_to f ids r = true ↔ ∃ id, cols r !! f = Some (VRef id) ∧ id ∈ ids.
Proof.
  unfold refers_to. destruct (cols r !! f) as [[n|s|k]|]; split; try done.
  - by intros (id & [=] & _).
  - by intros (id & [=] & _).
  - intros Hk%bool_decide_eq_true. by exists k.
  - intros (id & [= ->] & Hid). by apply bool_decide_eq_true.
  - by intros (id & [=] & _).
Qed.

(** X5.  In a state the database can be in, deleting an id that no row
    of the model has succeeds and leaves every table as it was: nothing
    refers to a row that does not exist, so nothing is collected. *)
Theorem delete_absent_row m id db :
  reachable save db → has_pk db (model_name m) id = false →
  ∃ db', delete m id db = inr db' ∧ ∀ n, objects db' n = objects db n.
Proof.
  intros Hdb Habsent.
  pose proof (reachable_references_resolve db Hdb) as Hrefs.
  unfold delete. change (length installed_models) with 8%nat.
  rewrite delete_cascade_unfold.
  rewrite fold_collect_related_none.
  - simpl. eexists. split; [reflexivity|]. intros n.
    rewrite objects_remove_rows. destruct (decide (model_name m = n)) as [<-|];
      [|done].
    apply filter_all, Forall_forall. intros r Hr Hin.
    apply list_elem_of_singleton in Hin.
    apply not_true_iff_false in Habsent. apply Habsent, has_pk_elem. eauto.
  - intros m' f rule Hin. apply filter_none, Forall_forall. intros r Hr Href.
    apply refers_to_elem in Href as (k & Hcol & Hk).
    apply list_elem_of_singleton in Hk as ->.
    apply referrers_spec in Hin as (m2 & fld & Hm2 & Hfld & <- & <- & Hty).
    apply not_true_iff_false in Habsent. apply Habsent.
    by apply (Hrefs m2 fld (model_name m) rule r id).
Qed.

Lemma delete_absent_row_witness :
  ∃ db', delete Recipe 42 sample_db = inr db'
         ∧ ∀ n, objects db' n = objects sample_db n.
Proof.
  apply delete_absent_row; [apply sample_db_stored|]. vm_compute. reflexivity.
Defined.

(** ** Text columns *)

Lemma nonempty_length s :
  is_empty_value (VStr s) = false → (1 ≤ String.length s)%nat.
Proof. destruct s; [done|simpl; lia]. Qed.

(** A [CharField] or [SlugField] column of a validated row. *)
Lemma stored_char_field db m fld n r :
  reachable clean_and_save db → m ∈ installed_models →
  fld ∈ model_fields m → r ∈ objects db (model_name m) →
  ftype fld = CharField n ∨ ftype fld = SlugField n →
  ∃ s, cols r !! fname fld = Some (VStr s) ∧ (1 ≤ String.length s ≤ n)%nat.
Proof.
  intros Hdb Hm Hfld Hr Hn. apply reachable_valid in Hdb.
  pose proof (full_clean_nil _ _ fld (Hdb m r Hm Hr) Hfld) as Hclean.
  apply clean_field_nil in Hclean as (x & Hx & Hty & Hne & Hv);
    [|by destruct Hn as [-> | ->]].
  unfold field_validators in Hv. rewrite !Forall_app in Hv.
  destruct Hv as (_ & _ & Hmax & _).
  destruct Hn as [Hn|Hn]; rewrite Hn in Hty, Hmax;
    destruct x as [|s|]; try done; exists s; (split; [done|]);
    (split; [by apply nonempty_length|]); simpl in Hmax;
    apply Forall_cons in Hmax as [Hmax _]; by apply Nat.leb_le.
Qed.

(** X6.  Every text column of a row stored through the data-entry
    boundary holds a non-empty text; where the field declares a
    [max_length] (the names, the unit, the colour, the slug), the text has at
    most that many characters. *)
Theorem text_columns_bounded :
  (∀ db m fld n r,
     reachable clean_and_save db → m ∈ installed_models →
     fld ∈ model_fields m → r ∈ objects db (model_name m) →
     ftype fld = CharField n ∨ ftype fld = SlugField n →
     ∃ s, cols r !! fname fld = Some (VStr s) ∧ (1 ≤ String.length s ≤ n)%nat)
  ∧ (∀ db m fld r,
       reachable clean_and_save db → m ∈ installed_models →
       fld ∈ model_fields m → r ∈ objects db (model_name m) →
       ftype fld = TextField ∨ (∃ dir, ftype fld = ImageField dir) →
       ∃ s, cols r !! fname fld = Some (VStr s) ∧ (1 ≤ String.length s)%nat).
Proof.
  split; [apply stored_char_field|].
  - intros db m fld r Hdb Hm Hfld Hr Hn. apply reachable_valid in Hdb.
    pose proof (full_clean_nil _ _ fld (Hdb m r Hm Hr) Hfld) as Hclean.
    apply clean_field_nil in Hclean as (x & Hx & Hty & Hne & Hv);
      [|by destruct Hn as [-> |[? ->]]].
    destruct Hn as [Hn|[dir Hn]]; rewrite Hn in Hty;
      destruct x as [|s|]; try done; exists s; (split; [done|]);
      by apply nonempty_length.
Qed.

Lemma text_columns_bounded_witness :
  (∀ r, r ∈ objects sample_db "Ingredient" →
     ∃ s, cols r !! "measurement_unit" = Some (VStr s)
          ∧ (1 ≤ String.length s ≤ 200)%nat)
  ∧ (∀ r, r ∈ objects sample_db "Recipe" →
       ∃ s, cols r !! "image" = Some (VStr s) ∧ (1 ≤ String.length s)%nat).
Proof.
  split; intros r Hr.
  - apply (proj1 text_columns_bounded sample_db Ingredient
             (Field "measurement_unit" (CharField 200) false []) 200%nat r).
    + apply sample_db_reachable.
    + installed.
    + simpl. right. left.
    + exact Hr.
    + left. reflexivity.
  - apply (proj2 text_columns_bounded sample_db Recipe
             (Field "image" (ImageField "recipes/") false []) r).
    + apply sample_db_reachable.
    + installed.
    + simpl. do 2 right. left.
    + exact Hr.
    + right. by eexists.
Defined.

(** ** Slugs and colours at validation *)

(** One or more (or [lo] or more) repetitions up to the end of the
    string: the string is long enough and consists of matching characters
    only. *)
Lemma match_repeat_to_end a lo pos s :
  match_repeat a (match_here [ReEndAbs]) lo None pos s
  = (lo <=? String.length s)%nat && all_match a s.
Proof.
  generalize (match_here [ReEndAbs]) (λ p s', andb_true_r (at_end s') : 
                match_here [ReEndAbs] p s' = at_end s').
  intros k Hk. revert lo pos.
  induction s as [|c s IH]; intros [|lo] pos; simpl; rewrite ?Hk; try done.
  - rewrite IH. simpl. by destruct (atom_matches a c).
  - rewrite IH. simpl. by destruct (atom_matches a c), (lo <=? String.length s)%nat.
Qed.

Lemma slug_regex_chars s :
  re_search slug_regex s = true ↔ s ≠ EmptyString ∧ all_match slug_chars s = true.
Proof.
  unfold slug_regex. rewrite re_search_anchored. cbn [match_here].
  fold slug_chars. rewrite match_repeat_to_end, andb_true_iff.
  destruct s as [|c s]; simpl.
  - split; intros [H _]; done.
  - split; intros [_ H]; split; done.
Qed.

(** X7.  The slug validator accepts exactly the non-empty texts made of
    letters, digits, hyphens and underscores; every Tag row stored through
    the data-entry boundary has such a slug, of at most 200 characters. *)
Theorem tag_slug_format :
  (∀ s, run_validator validate_slug (VStr s) = true
        ↔ s ≠ EmptyString ∧ all_match slug_chars s = true)
  ∧ (∀ db r, reachable clean_and_save db → r ∈ objects db "Tag" →
       ∃ s, cols r !! "slug" = Some (VStr s)
            ∧ (1 ≤ String.length s ≤ 200)%nat
            ∧ all_match slug_chars s = true).
Proof.
  split; [intros s; apply slug_regex_chars|].
  intros db r Hdb Hr. apply reachable_valid in Hdb.
  specialize (Hdb Tag r ltac:(installed) Hr).
  apply (full_clean_nil _ _ (Field "slug" (SlugField 200) true [])) in Hdb;
    [|simpl; repeat ((by left) || right)].
  apply clean_field_nil in Hdb as (x & Hx & Hty & Hne & Hv); [|done].
  destruct x as [|s|]; try done. exists s. simpl in Hx. split; [done|].
  unfold field_validators in Hv. simpl in Hv.
  apply Forall_cons in Hv as [Hslug Hv]. apply Forall_cons in Hv as [Hmax _].
  simpl in Hslug, Hmax. apply slug_regex_chars in Hslug as [Hs Hchars].
  apply Nat.leb_le in Hmax. repeat split; try done.
  destruct s; [done|simpl; lia].
Qed.

Lemma tag_slug_format_witness :
  ∃ s, cols (Row 1 (list_to_map [("name", VStr "breakfast");
                                 ("color", VStr "#E26C2d");
                                 ("slug", VStr "breakfast")])) !! "slug"
       = Some (VStr s)
       ∧ (1 ≤ String.length s ≤ 200)%nat
       ∧ all_match slug_chars s = true.
Proof.
  apply (proj2 tag_slug_format sample_db); [apply sample_db_reachable|].
  vm_compute. left.
Defined.

Lemma hex_color_regex s : hex_color s = true → re_search color_regex s = true.
Proof.
  unfold color_regex. rewrite re_search_anchored. cbn [match_here].
  destruct s as [|c0 s]; [done|]. unfold hex_color.
  rewrite !andb_true_iff. intros [[H0 Hlen] Hhex].
  apply Nat.eqb_eq in Hlen.
  do 6 (destruct s as [|? s]; [done|]). destruct s; [|done].
  simpl in Hhex. repeat (apply andb_true_iff in Hhex as [? Hhex]).
  rewrite match_repeat_next, match_repeat_done, !match_repeat_next,
    match_repeat_done, !hex_class.
  simpl in *. by repeat (apply andb_true_iff; split).
Qed.

Lemma hex_color_length s : hex_color s = true → String.length s = 7%nat.
Proof.
  destruct s as [|c s]; [done|]. unfold hex_color.
  rewrite !andb_true_iff. intros [[_ Hlen] _].
  apply Nat.eqb_eq in Hlen. simpl. by rewrite Hlen.
Qed.

(** X8.  Validation of [Tag.color] accepts a text exactly when it is [#]
    followed by six hexadecimal digits, in either case. *)
Theorem color_validation_exact s :
  clean_field color_field (Some (VStr s)) = [] ↔ hex_color s = true.
Proof.
  split.
  - intros H. apply color_clean in H as (s' & [= <-] & Hre & Hlen).
    by apply color_regex_hex.
  - intros H. pose proof (hex_color_regex s H) as Hre.
    pose proof (hex_color_length s H) as Hlen.
    unfold clean_field, field_validators. simpl.
    destruct s as [|c s]; [done|]. simpl is_empty_value. cbv iota.
    change (range_validators _ _) with (@nil validator).
    rewrite !filter_cons, filter_nil.
    rewrite !decide_False; [done|..]; unfold run_validator;
      first [by rewrite Hlen|by rewrite Hre].
Qed.

Example color_validation_cases :
  clean_field color_field (Some (VStr "#00ffAA")) = []
  ∧ clean_field color_field (Some (VStr "#00ffAG")) = ["wrong_hex_code"]
  ∧ clean_field color_field (Some (VStr "00ffAA")) = ["wrong_hex_code"]
  ∧ clean_field color_field (Some (VStr "#00ffAA0")) = ["wrong_hex_code"; "max_length"].
Proof. repeat split; reflexivity. Qed.

(** ** Models without uniqueness *)

Lemma entry_repeats m data db db' :
  unique_sets m = [] → clean_and_save m data db = inr db' →
  ∃ db'', clean_and_save m data db' = inr db''
          ∧ objects db'' (model_name m)
            = objects db (model_name m)
              ++ [Row (last_id db (model_name m) + 1) data;
                  Row (last_id db (model_name m) + 2) data].
Proof.
  intros Hnone H. apply clean_and_save_inr in H as [Hclean Hsave].
  pose proof (save_twice_accepted m data db db' Hnone Hsave) as Hagain.
  apply save_inr in Hsave as (_ & _ & _ & ->).
  eexists. rewrite clean_and_save_valid by done. split; [exact Hagain|].
  rewrite !objects_insert_row, !decide_True by done.
  rewrite <- app_assoc. simpl.
  rewrite last_id_insert_row, decide_True by done.
  by replace (last_id db (model_name m) + 1 + 1)
    with (last_id db (model_name m) + 2) by lia.
Qed.

(** X9.  Recipe and Ingredient keep nothing unique: an entry that was
    accepted is accepted again, and the table then holds two rows with the
    same values (the same ingredient name and unit, the same recipe). *)
Theorem recipes_and_ingredients_repeat m data db db' :
  m = Recipe ∨ m = Ingredient →
  clean_and_save m data db = inr db' →
  ∃ db'', clean_and_save m data db' = inr db''
          ∧ objects db'' (model_name m)
            = objects db (model_name m)
              ++ [Row (last_id db (model_name m) + 1) data;
                  Row (last_id db (model_name m) + 2) data].
Proof. intros [-> | ->]; by apply entry_repeats. Qed.

Lemma recipes_and_ingredients_repeat_witness :
  ∃ db'',
    clean_and_save Ingredient
      (list_to_map [("name", VStr "egg"); ("measurement_unit", VStr "pcs")])
      (insert_row "Ingredient"
         (list_to_map [("name", VStr "egg"); ("measurement_unit", VStr "pcs")])
         sample_db)
    = inr db''
    ∧ objects db'' (model_name Ingredient)
      = objects sample_db (model_name Ingredient)
        ++ [Row (last_id sample_db (model_name Ingredient) + 1)
                (list_to_map [("name", VStr "egg"); ("measurement_unit", VStr "pcs")]);
            Row (last_id sample_db (model_name Ingredient) + 2)
                (list_to_map [("name", VStr "egg"); ("measurement_unit", VStr "pcs")])].
Proof.
  apply recipes_and_ingredients_repeat; [by right|]. vm_compute. reflexivity.
Defined.

(** ** Required columns *)



(** ** Primary keys *)

Lemma step_last_id w db db' n :
  (∀ m data db db', w m data db = inr db' → save m data db = inr db') →
  step w db db' → last_id db n ≤ last_id db' n.
Proof.
  intros Hw [m data _ Hsave|m id _ Hdel].
  - apply Hw, save_inr in Hsave as (_ & _ & _ & ->).
    rewrite last_id_insert_row. destruct (decide (model_name m = n)) as [<-|]; lia.
  - apply delete_cascade_sequences in Hdel. unfold last_id. by rewrite Hdel.
Qed.

(** X11.  Ids identify rows: in every state the database can reach the
    ids of a table are distinct, and an id is never handed out again, also
    after its row has been deleted: a row stored later gets an id greater
    than that of any row the table has held. *)
Theorem primary_keys_identify :
  (∀ db n, reachable save db → NoDup (pk <$> objects db n))
  ∧ (∀ db db2 db3 m data r,
       reachable save db → r ∈ objects db (model_name m) →
       rtc (step save) db db2 → save m data db2 = inr db3 →
       ∃ id, objects db3 (model_name m)
             = objects db2 (model_name m) ++ [Row id data]
             ∧ pk r < id).
Proof.
  split.
  - intros db n Hdb. apply (reachable_keys_fresh save save_refines_save db Hdb).
  - intros db db2 db3 m data r Hdb Hr Hsteps Hsave.
    destruct (reachable_keys_fresh save save_refines_save db Hdb (model_name m))
      as [Hle _].
    eapply Forall_forall in Hle; [|exact Hr]. simpl in Hle.
    assert (last_id db (model_name m) ≤ last_id db2 (model_name m)) as Hmono.
    { clear -Hsteps. induction Hsteps as [|d1 d2 d3 Hstep _ IH]; [lia|].
      pose proof (step_last_id save d1 d2 (model_name m) save_refines_save Hstep).
      lia. }
    apply save_inr in Hsave as (_ & _ & _ & ->).
    exists (last_id db2 (model_name m) + 1). split; [|lia].
    by rewrite objects_insert_row, decide_True.
Qed.

Lemma primary_keys_identify_witness :
  NoDup (pk <$> objects sample_db "Recipe")
  ∧ ∃ id, objects (insert_row "Favorite" (pair_data "user" 1 "recipe" 4)
                     sample_db) (model_name Favorite)
          = objects sample_db (model_name Favorite)
            ++ [Row id (pair_data "user" 1 "recipe" 4)]
          ∧ pk (Row 1 (pair_data "user" 1 "recipe" 5)) < id.
Proof.
  split.
  - apply (proj1 primary_keys_identify), sample_db_stored.
  - apply (proj2 primary_keys_identify sample_db sample_db).
    + apply sample_db_stored.
    + vm_compute. left.
    + apply rtc_refl.
    + vm_compute. reflexivity.
Defined.

(** ** Listings without ties *)

Lemma StronglySorted_strict {A B} (R S : A → A → Prop) (f : A → B) l :
  (∀ a b, a ∈ l → b ∈ l → R a b → f a ≠ f b → S a b) →
  NoDup (f <$> l) → StronglySorted R l → StronglySorted S l.
Proof.
  intros HRS Hnd Hs. induction Hs as [|a l Hl IH Ha]; [constructor|].
  rewrite fmap_cons in Hnd. apply NoDup_cons in Hnd as [Hnot Hnd].
  constructor.
  - apply IH; [|done]. intros x y Hx Hy. apply HRS; by right.
  - apply Forall_forall. intros b Hb. eapply Forall_forall in Ha; [|exact Hb].
    apply HRS; [by left|by right|done|].
    intros Heq. apply Hnot. rewrite Heq. by apply list_elem_of_fmap_2.
Qed.

Lemma distinct_on_NoDup f (l : list row) :
  distinct_on [f] l → Forall (λ r, is_Some (cols r !! f)) l →
  NoDup ((λ r, cols r !! f) <$> l).
Proof.
  induction 1 as [|a l Ha Hl IH]; intros Hsome; [constructor|].
  apply Forall_cons in Hsome as [[x Hx] Hsome].
  rewrite fmap_cons. apply NoDup_cons. split; [|by apply IH].
  intros Hin. apply list_elem_of_fmap in Hin as (b & Heq & Hb).
  eapply Forall_forall in Ha; [|exact Hb].
  unfold same_on in Ha. simpl in Ha. rewrite <- Heq, Hx in Ha.
  rewrite bool_decide_true in Ha by done. done.
Qed.

(** X12.  Listings without ties: in every state the database can reach
    the recipes are listed with strictly descending ids, and in every state
    reached through the data-entry boundary the tags are listed with
    strictly ascending names. *)
Theorem listings_strictly_ordered :
  (∀ db, reachable save db →
     StronglySorted (λ a b, pk b < pk a) (all_objects Recipe db))
  ∧ (∀ db, reachable clean_and_save db →
       StronglySorted
         (λ a b, ∃ x y, text_of a "name" = Some x ∧ text_of b "name" = Some y
                        ∧ String.le x y ∧ x ≠ y)
         (all_objects Tag db)).
Proof.
  split.
  - intros db Hdb.
    destruct (all_objects_sorted Recipe db) as [Hs Hp].
    apply (StronglySorted_strict (row_le ["-id"]) _ pk); [| |done].
    + intros a b _ _ [Hle _] Hne. unfold key_le in Hle. simpl in Hle. lia.
    + rewrite Hp.
      apply (reachable_keys_fresh save save_refines_save db Hdb).
  - intros db Hdb.
    destruct (all_objects_sorted Tag db) as [Hs Hp].
    assert (∀ r, r ∈ all_objects Tag db → ∃ s, cols r !! "name" = Some (VStr s))
      as Htext.
    { intros r Hr. rewrite Hp in Hr. apply reachable_valid in Hdb.
      specialize (Hdb Tag r ltac:(installed) Hr).
      apply (full_clean_nil _ _ (Field "name" (CharField 200) true [])) in Hdb;
        [|simpl; by left].
      apply clean_field_nil in Hdb as (x & Hx & Hty & _); [|done].
      destruct x as [|s|]; try done. by exists s. }
    apply (StronglySorted_strict (row_le ["name"]) _ (λ r, cols r !! "name"));
      [| |done].
    + intros a b Ha Hb [Hle _] Hne. unfold key_le, get_field in Hle.
      simpl in Hle. unfold text_of.
      destruct (Htext a Ha) as [x Hx], (Htext b Hb) as [y Hy].
      rewrite Hx, Hy in *. exists x, y. repeat split; [done|congruence].
    + rewrite Hp. apply distinct_on_NoDup.
      * apply (reachable_rows_distinct clean_and_save clean_and_save_refines_save
                 db Hdb Tag ("name", ["name"])); [installed|by left].
      * apply Forall_forall. intros r Hr. rewrite <- Hp in Hr.
        destruct (Htext r Hr) as [s ->]. by eexists.
Qed.

Lemma listings_strictly_ordered_witness :
  StronglySorted (λ a b, pk b < pk a) (all_objects Recipe sample_db)
  ∧ StronglySorted
      (λ a b, ∃ x y, text_of a "name" = Some x ∧ text_of b "name" = Some y
                     ∧ String.le x y ∧ x ≠ y)
      (all_objects Tag sample_db).
Proof.
  split.
  - apply (proj1 listings_strictly_ordered), sample_db_stored.
  - apply (proj2 listings_strictly_ordered), sample_db_reachable.
Defined.

(** ** Display names *)

Lemma find_pk db n id :
  has_pk db n id = true →
  ∃ x, List.find (λ x, pk x =? id) (objects db n) = Some x
       ∧ x ∈ objects db n ∧ pk x = id.
Proof.
  unfold has_pk. intros Hex.
  destruct (List.find (λ x, pk x =? id) (objects db n)) as [x|] eqn:Hfind.
  - apply find_some in Hfind as [Hin Heq]. exists x.
    split; [done|]. split; [by apply list_elem_of_In|lia].
  - apply existsb_exists in Hex as (x & Hin & Heq).
    pose proof (find_none _ _ Hfind x Hin) as Hn. simpl in Hn. congruence.
Qed.

(** X13.  In a state reached through the data-entry boundary the display
    names never fail: a recipe, a tag and an ingredient display their name,
    a text of 1 to 200 characters, and a RecipeTag row displays the name of
    the recipe it refers to, which exists. *)
Theorem display_names_defined db :
  reachable clean_and_save db →
  (∀ r, r ∈ objects db "Recipe" →
     ∃ s, Recipe_str r = Some s ∧ (1 ≤ String.length s ≤ 200)%nat)
  ∧ (∀ r, r ∈ objects db "Tag" →
       ∃ s, Tag_str r = Some s ∧ (1 ≤ String.length s ≤ 200)%nat)
  ∧ (∀ r, r ∈ objects db "Ingredient" →
       ∃ s, Ingredient_str r = Some s ∧ (1 ≤ String.length s ≤ 200)%nat)
  ∧ (∀ r, r ∈ objects db "RecipeTag" →
       ∃ recipe s,
         recipe ∈ objects db "Recipe"
         ∧ cols r !! "recipe" = Some (VRef (pk recipe))
         ∧ Recipe_str recipe = Some s
         ∧ RecipeTag_str db r = Some s).
Proof.
  intros Hdb.
  assert (∀ m u r, m ∈ installed_models →
            Field "name" (CharField 200) u [] ∈ model_fields m →
            r ∈ objects db (model_name m) →
            ∃ s, text_of r "name" = Some s ∧ (1 ≤ String.length s ≤ 200)%nat)
    as Hname.
  { intros m u r Hm Hfld Hr.
    destruct (stored_char_field db m _ 200 r Hdb Hm Hfld Hr) as (s & Hs & Hlen);
      [by left|].
    exists s. unfold text_of. simpl in Hs. by rewrite Hs. }
  split; [|split; [|split]].
  - intros r Hr. apply (Hname Recipe false); [installed|simpl; right; by left|done].
  - intros r Hr. apply (Hname Tag true); [installed|simpl; by left|done].
  - intros r Hr. apply (Hname Ingredient false); [installed|simpl; by left|done].
  - intros r Hr.
    pose proof (reachable_valid db Hdb RecipeTag r ltac:(installed) Hr) as Hvalid.
    apply (full_clean_nil _ _ (Field "recipe" (ForeignKey "Recipe" CASCADE) false []))
      in Hvalid; [|simpl; by left].
    apply clean_field_nil in Hvalid as (x & Hx & Hty & _); [|done].
    destruct x as [| |id]; try done. simpl in Hx.
    assert (has_pk db "Recipe" id = true) as Hpk.
    { apply (reachable_references_resolve db
               (reachable_mono _ _ db clean_and_save_refines_save Hdb)
               RecipeTag (Field "recipe" (ForeignKey "Recipe" CASCADE) false [])
               "Recipe" CASCADE r id); [installed|simpl; by left|done..]. }
    apply find_pk in Hpk as (recipe & Hfind & Hin & <-).
    destruct (Hname Recipe false recipe) as (s & Hs & _);
      [installed|simpl; right; by left|done|].
    exists recipe, s. repeat split; try done.
    unfold RecipeTag_str, related_object. rewrite Hx, Hfind. exact Hs.
Qed.

Lemma display_names_defined_witness :
  (∀ r, r ∈ objects sample_db "Recipe" →
     ∃ s, Recipe_str r = Some s ∧ (1 ≤ String.length s ≤ 200)%nat)
  ∧ (∀ r, r ∈ objects sample_db "Tag" →
       ∃ s, Tag_str r = Some s ∧ (1 ≤ String.length s ≤ 200)%nat)
  ∧ (∀ r, r ∈ objects sample_db "Ingredient" →
       ∃ s, Ingredient_str r = Some s ∧ (1 ≤ String.length s ≤ 200)%nat)
  ∧ (∀ r, r ∈ objects sample_db "RecipeTag" →
       ∃ recipe s,
         recipe ∈ objects sample_db "Recipe"
         ∧ cols r !! "recipe" = Some (VRef (pk recipe))
         ∧ Recipe_str recipe = Some s
         ∧ RecipeTag_str sample_db r = Some s).
Proof. apply display_names_defined, sample_db_reachable. Defined.

Example sample_recipe_tag_str :
  RecipeTag_str sample_db (Row 1 (pair_data "recipe" 5 "tag" 1)) = Some "Omelette".
Proof. vm_compute. reflexivity. Qed.

(** ** The ingredients and tags of a recipe *)

Lemma recipe_ingredients_unfold id db :
  many_to_many Recipe ingredients_field id db =
    merge_sort (row_le ["name"])
      (link ← filter (λ l, cols l !! "recipe" = Some (VRef id))
                     (objects db "RecipeIngredient");
       filter (λ t, cols link !! "ingredient" = Some (VRef (pk t)))
              (objects db "Ingredient")).
Proof. reflexivity. Qed.

(** A join over links that are distinct on (source, target) yields each
    target at most once. *)
Lemma join_NoDup src tgt id (links targets : list row) :
  distinct_on [src; tgt] links → NoDup (pk <$> targets) →
  NoDup (pk <$> (link ← filter (λ l, cols l !! src = Some (VRef id)) links;
                 filter (λ t, cols link !! tgt = Some (VRef (pk t))) targets)).
Proof.
  intros Hdist Hnd.
  assert (distinct_on [src; tgt]
            (filter (λ l, cols l !! src = Some (VRef id)) links)) as Hd.
  { eapply ForallOrdPairs_sublist; [apply sublist_filter|done]. }
  assert (Forall (λ l, cols l !! src = Some (VRef id))
            (filter (λ l, cols l !! src = Some (VRef id)) links)) as Hsrc.
  { apply Forall_forall. intros l Hl. by apply list_elem_of_filter in Hl as [? _]. }
  induction Hd as [|a L Ha HL IH]; [constructor|].
  apply Forall_cons in Hsrc as [Hsa Hsrc].
  rewrite bind_cons, fmap_app. apply NoDup_app. split; [|split].
  - by apply NoDup_pk_filter.
  - intros x Hx Hx'.
    apply list_elem_of_fmap in Hx as (t & -> & Ht).
    apply list_elem_of_filter in Ht as [Hta _].
    apply list_elem_of_fmap in Hx' as (t' & Heq & Ht').
    apply list_elem_of_bind in Ht' as (b & Ht' & Hb).
    apply list_elem_of_filter in Ht' as [Htb _].
    eapply Forall_forall in Ha; [|exact Hb].
    eapply Forall_forall in Hsrc; [|exact Hb].
    unfold same_on in Ha. simpl in Ha.
    rewrite Hsa, Hsrc, Hta, Htb, Heq in Ha.
    rewrite !bool_decide_true in Ha by done. done.
  - by apply IH.
Qed.

(** X14.  The ingredients of a recipe are the ingredients that a
    RecipeIngredient row links to it, and in every state the database can
    reach each of them is listed once; the tags of a recipe can be listed
    twice, since RecipeTag keeps nothing unique. *)
Theorem recipe_ingredients_listed_once :
  (∀ db id t,
     t ∈ many_to_many Recipe ingredients_field id db ↔
     t ∈ objects db "Ingredient"
     ∧ ∃ link, link ∈ objects db "RecipeIngredient"
               ∧ cols link !! "recipe" = Some (VRef id)
               ∧ cols link !! "ingredient" = Some (VRef (pk t)))
  ∧ (∀ db id, reachable save db →
       NoDup (pk <$> many_to_many Recipe ingredients_field id db))
  ∧ (∃ db, reachable clean_and_save db
           ∧ pk <$> many_to_many Recipe tags_field 5 db = [1; 1]).
Proof.
  split; [|split].
  - intros db id t. rewrite recipe_ingredients_unfold, merge_sort_Permutation.
    rewrite list_elem_of_bind. split.
    + intros (link & Ht & Hlink).
      apply list_elem_of_filter in Ht as [Hing Ht].
      apply list_elem_of_filter in Hlink as [Hrec Hlink]. eauto.
    + intros (Ht & link & Hlink & Hrec & Hing).
      exists link. split; by apply list_elem_of_filter.
  - intros db id Hdb. rewrite recipe_ingredients_unfold, merge_sort_Permutation.
    apply join_NoDup.
    + apply (reachable_rows_distinct save save_refines_save db Hdb RecipeIngredient
               ("unique_recipeingredient", ["recipe"; "ingredient"]));
        [installed|by left].
    + apply (reachable_keys_fresh save save_refines_save db Hdb).
  - exists (insert_row "RecipeTag" (pair_data "recipe" 5 "tag" 1) sample_db).
    split; [|vm_compute; reflexivity].
    eapply reachable_step; [apply sample_db_reachable|].
    apply (step_write _ _ _ RecipeTag (pair_data "recipe" 5 "tag" 1));
      [installed|vm_compute; reflexivity].
Qed.

Lemma recipe_ingredients_listed_once_witness :
  NoDup (pk <$> many_to_many Recipe ingredients_field 5 sample_db).
Proof.
  apply (proj1 (proj2 recipe_ingredients_listed_once)), sample_db_stored.
Defined.

Example sample_recipe_ingredients :
  (λ r, text_of r "name") <$> many_to_many Recipe ingredients_field 5 sample_db
  = [Some "egg"].
Proof. vm_compute. reflexivity. Qed.

(** ** When an entry is stored *)



